(** * Glyph arrangement engine of the 3D font viewer (src/index.tsx)

    A shallow embedding of [updateGlyphArrangement], [getTorusKnotPos],
    [updateAnimatedGlyphs], [animate], [renderAllGlyphs] and
    [handleFontUpload], and the properties of the arrangement engine and of
    its callers proved about them.

    Numbers.  A JavaScript [number] is idealised as a real number: [Math.cos],
    [Math.sin], [Math.sqrt], [Math.acos], [Math.PI] and [Math.max] are the
    functions of the real-number library, so rounding is not modelled and
    every statement below is one of exact real arithmetic.  A glyph index
    and the collection's length are natural numbers, injected with [INR];
    the knot sliders hold integers, injected with [IZR].

    State.  The DOM elements and the scene objects the functions read and
    write are the fields of the record [World]; a function of the source
    becomes a function from [World] to [World]. *)

From Stdlib Require Import Reals Lra Lia List String ZArith Psatz DecimalString.
Import ListNotations.

Open Scope R_scope.

(** ** THREE.Vector3 *)

(** The methods of three.js's [Vector3] that the source calls.  The library
    is not part of the repository; each method follows its documented
    behaviour.  The library's methods update the receiver in place; here
    they return the updated vector, and the source's order of updates is
    kept where it matters ([crossVectors] reads [N] before [N] is scaled). *)
Module Vector3.

Record t : Type := mk { x : R; y : R; z : R }.

Definition add (a b : t) : t := mk (x a + x b) (y a + y b) (z a + z b).

Definition sub (a b : t) : t := mk (x a - x b) (y a - y b) (z a - z b).

Definition multiplyScalar (a : t) (s : R) : t := mk (x a * s) (y a * s) (z a * s).

Definition dot (a b : t) : R := x a * x b + y a * y b + z a * z b.

Definition lengthSq (a : t) : R := dot a a.

Definition length (a : t) : R := sqrt (lengthSq a).

(** [divideScalar(s)] is [multiplyScalar(1 / s)]. *)
Definition divideScalar (a : t) (s : R) : t := multiplyScalar a (1 / s).

(** [normalize()] is [divideScalar(this.length() || 1)]: a vector of length
    zero is divided by one, that is, left as it is. *)
Definition normalize (a : t) : t :=
  divideScalar a (if Req_dec_T (length a) 0 then 1 else length a).

Definition crossVectors (a b : t) : t :=
  mk (y a * z b - z a * y b) (z a * x b - x a * z b) (x a * y b - y a * x b).

End Vector3.

Abbreviation Vec3 := Vector3.t.

(** ** Numbers of the source *)

(** [Math.floor] and [Math.ceil]. *)
Definition Math_floor (a : R) : R := IZR (Zfloor a).
Definition Math_ceil (a : R) : R := IZR (Zceil a).

(** The remainder operator [a % b] on numbers: the quotient is truncated
    towards zero, so the result has the sign of the dividend. *)
Definition js_trunc (a : R) : R :=
  if Rle_dec 0 a then Math_floor a else Math_ceil a.

Definition js_rem (a b : R) : R := a - b * js_trunc (a / b).

(** ** Scene objects *)

(** The orientation of an object.  [rotation.set(x, y, z)] stores Euler
    angles; [lookAt(target)] turns the object towards [target].  The
    rotation that three.js derives from a look-at is not needed by any
    property below, so the target is what is recorded. *)
Inductive Orientation : Type :=
| Euler (rx ry rz : R)
| LookAt (target : Vec3).

(** The colour of a material: the hexadecimal colour it was created with,
    or the arguments of the last [color.setHSL(h, s, l)]. *)
Inductive Color : Type :=
| Hex (rgb : Z)
| HSL (h s l : R).

(** A glyph mesh: the fields of [THREE.Mesh] that the engine writes. *)
Record Mesh : Type := mkMesh {
  position : Vec3;
  rotation : Orientation;
  color : Color
}.

(** What the engine reads and writes:
    - [shapeValue]: [shapeSelectElement.value];
    - [spacingValue]: [parseFloat(spacingSliderElement.value)];
    - [pValue], [qValue]: [parseInt] of the knot sliders' values;
    - [knotDisplay]: [knotControlsElement.style.display];
    - [groupRotation]: [glyphGroup.rotation] (Euler angles x, y, z);
    - [children]: [glyphGroup.children];
    - [scenePosition]: [scene.position];
    - [cameraPosition]: [camera.position]. *)
Record World : Type := mkWorld {
  shapeValue : string;
  spacingValue : R;
  pValue : Z;
  qValue : Z;
  knotDisplay : string;
  groupRotation : Vec3;
  children : list Mesh;
  scenePosition : Vec3;
  cameraPosition : Vec3
}.

Definition set_children (w : World) (cs : list Mesh) : World :=
  mkWorld (shapeValue w) (spacingValue w) (pValue w) (qValue w)
          (knotDisplay w) (groupRotation w) cs
          (scenePosition w) (cameraPosition w).

Definition set_knotDisplay (w : World) (d : string) : World :=
  mkWorld (shapeValue w) (spacingValue w) (pValue w) (qValue w)
          d (groupRotation w) (children w)
          (scenePosition w) (cameraPosition w).

Definition set_groupRotation (w : World) (r : Vec3) : World :=
  mkWorld (shapeValue w) (spacingValue w) (pValue w) (qValue w)
          (knotDisplay w) r (children w)
          (scenePosition w) (cameraPosition w).

Definition set_cameraPosition (w : World) (c : Vec3) : World :=
  mkWorld (shapeValue w) (spacingValue w) (pValue w) (qValue w)
          (knotDisplay w) (groupRotation w) (children w)
          (scenePosition w) c.

(** [array.forEach((mesh, i) => ...)] where the callback updates [mesh]:
    the callback is applied to every element with its index, in order. *)
Fixpoint forEach_from {A : Type} (f : nat -> A -> A) (i : nat) (l : list A) : list A :=
  match l with
  | [] => []
  | a :: l' => f i a :: forEach_from f (S i) l'
  end.

Definition forEach {A : Type} (f : nat -> A -> A) (l : list A) : list A :=
  forEach_from f 0 l.

(** ** The arrangers *)

Open Scope string_scope.

(** [shape === 'mobius' || shape === 'klein' || shape === 'torus-klein-knot']:
    the test by which [updateGlyphArrangement] and [animate] send a shape to
    [updateAnimatedGlyphs]. *)
Definition isAnimated (shape : string) : bool :=
  (shape =? "mobius") || (shape =? "klein") || (shape =? "torus-klein-knot").

(** [shape === 'circle' || shape === 'helix' || shape === 'sphere' ||
    shape === 'grid']: the test by which [animate] spins the group. *)
Definition isStatic (shape : string) : bool :=
  (shape =? "circle") || (shape =? "helix") || (shape =? "sphere") || (shape =? "grid").

(** The values of the shape selector that the engine supports. *)
Definition supported (shape : string) : bool := isStatic shape || isAnimated shape.

Close Scope string_scope.

(** [getTorusKnotPos(u, p, q, radius, tubeRadius)]. *)
Definition getTorusKnotPos (u p q radius tubeRadius : R) : Vec3 :=
  let p_u := p * u in
  let q_u := q * u in
  let x := (radius + tubeRadius * cos q_u) * cos p_u in
  let y := (radius + tubeRadius * cos q_u) * sin p_u in
  let z := tubeRadius * sin q_u in
  Vector3.mk x y z.

(** The mobius branch of the callback of [updateAnimatedGlyphs]. *)
Definition mobiusPos (spacing time : R) (count i : nat) : Vec3 :=
  let R := 150 * spacing in
  let u := (INR i / INR count) * PI * 2 + time * 0.2 in
  let v := 2 * u in
  let x := (R + 30 * cos (v / 2)) * cos u in
  let y := (R + 30 * cos (v / 2)) * sin u in
  let z := 30 * sin (v / 2) in
  Vector3.mk x y z.

(** The klein branch. *)
Definition kleinPos (spacing time : R) (count i : nat) : Vec3 :=
  let u := (INR i / INR count) * PI * 2 in
  let v := time * 0.5 in
  let scale := 30 * spacing in
  let r := 4 in
  let cos_u := cos u in
  let sin_u := sin u in
  let cos_v := cos v in
  let sin_v := sin v in
  let x := if Rlt_dec u PI
           then scale * (6 * cos_u * (1 + sin_u) + r * (1 - cos_u / 2) * cos_u * cos_v)
           else scale * (6 * cos_u * (1 + sin_u) - r * (1 - cos_u / 2) * cos_v) in
  let z := if Rlt_dec u PI
           then scale * (16 * sin_u + r * (1 - cos_u / 2) * sin_u * cos_v)
           else scale * (16 * sin_u) in
  let y := scale * (r * (1 - cos_u / 2) * sin_v) in
  Vector3.mk x y z.

(** The torus-klein-knot branch: the parameter [u] along the knot, the point
    [P] on the knot, the frame [T], [N], [B] and the helical offset. *)
Definition knotU (time : R) (count i : nat) : R :=
  let animSpeed := 0.05 in
  ((INR i / INR count) + time * animSpeed) * PI * 2.

Definition knotP (spacing : R) (p q : Z) (time : R) (count i : nat) : Vec3 :=
  let radius := 100 * spacing in
  let tubeRadius := 40 * spacing in
  getTorusKnotPos (knotU time count i) (IZR p) (IZR q) radius tubeRadius.

Definition knotT (spacing : R) (p q : Z) (time : R) (count i : nat) : Vec3 :=
  let radius := 100 * spacing in
  let tubeRadius := 40 * spacing in
  let u := knotU time count i in
  let P := knotP spacing p q time count i in
  let epsilon := 0.001 in
  let P_plus_eps := getTorusKnotPos (u + epsilon) (IZR p) (IZR q) radius tubeRadius in
  Vector3.normalize (Vector3.sub P_plus_eps P).

Definition knotN (spacing : R) (p q : Z) (time : R) (count i : nat) : Vec3 :=
  let radius := 100 * spacing in
  let tubeRadius := 40 * spacing in
  let u := knotU time count i in
  let P := knotP spacing p q time count i in
  let epsilon := 0.001 in
  Vector3.normalize
    (Vector3.sub (getTorusKnotPos u (IZR p) (IZR q) radius (tubeRadius + epsilon)) P).

Definition knotHelixAngle (time : R) (count i : nat) : R :=
  time * 5 + (INR i / INR count) * PI * 8.

Definition knotHelixOffset (spacing : R) (p q : Z) (time : R) (count i : nat) : Vec3 :=
  let T := knotT spacing p q time count i in
  let N := knotN spacing p q time count i in
  let B := Vector3.crossVectors T N in
  let helixRadius := 15 in
  let helixAngle := knotHelixAngle time count i in
  Vector3.add (Vector3.multiplyScalar N (cos helixAngle * helixRadius))
              (Vector3.multiplyScalar B (sin helixAngle * helixRadius)).

Definition knotPos (spacing : R) (p q : Z) (time : R) (count i : nat) : Vec3 :=
  Vector3.add (knotP spacing p q time count i)
              (knotHelixOffset spacing p q time count i).

Definition knotHue (time : R) (count i : nat) : R :=
  js_rem (knotU time count i / (PI * 2)) 1.

Open Scope string_scope.

(** The callback of [glyphGroup.children.forEach] in [updateAnimatedGlyphs]:
    what it does to [object], the mesh at index [i]. *)
Definition animatedGlyph (w : World) (time : R) (count i : nat) (object : Mesh) : Mesh :=
  let shape := shapeValue w in
  let spacing := spacingValue w in
  if shape =? "mobius" then
    mkMesh (mobiusPos spacing time count i) (LookAt (scenePosition w)) (color object)
  else if shape =? "klein" then
    mkMesh (kleinPos spacing time count i) (LookAt (scenePosition w)) (color object)
  else if shape =? "torus-klein-knot" then
    let p := pValue w in
    let q := qValue w in
    mkMesh (knotPos spacing p q time count i)
           (LookAt (knotP spacing p q time count i))
           (HSL (knotHue time count i) 0.8 0.6)
  else object.

(** [updateAnimatedGlyphs(time)]. *)
Definition updateAnimatedGlyphs (time : R) (w : World) : World :=
  if (List.length (children w) =? 0)%nat then w
  else
    let count := List.length (children w) in
    set_children w (forEach (animatedGlyph w time count) (children w)).

Close Scope string_scope.

(** The callback of [glyphGroup.children.forEach] in
    [updateGlyphArrangement]: the object's rotation is reset, then the
    [switch] on the shape places it.  A shape that no [case] names leaves
    the position as it is. *)
Definition staticGlyph (w : World) (count i : nat) (mesh : Mesh) : Mesh :=
  let shape := shapeValue w in
  let spacing := spacingValue w in
  let object := mkMesh (position mesh) (Euler 0 0 0) (color mesh) in
  if (shape =? "circle")%string then
    let radius := Rmax 200 (INR count * 0.6) * spacing in
    let angle := (INR i / INR count) * PI * 2 in
    mkMesh (Vector3.mk (radius * cos angle) 0 (radius * sin angle))
           (LookAt (scenePosition w)) (color object)
  else if (shape =? "grid")%string then
    let itemSize := 40 * spacing in
    let cols := Math_ceil (sqrt (INR count)) in
    let gridX := (js_rem (INR i) cols - (cols - 1) / 2) * itemSize in
    let gridY := (Math_floor (INR i / cols)
                  - (Math_floor (INR count / cols) - 1) / 2) * - itemSize in
    mkMesh (Vector3.mk gridX gridY 0) (LookAt (cameraPosition w)) (color object)
  else if (shape =? "sphere")%string then
    let sphereRadius := Rmax 150 (INR count * 0.25) * spacing in
    let phi := acos (-1 + (2 * INR i) / INR count) in
    let theta := sqrt (INR count * PI) * phi in
    mkMesh (Vector3.mk (sphereRadius * cos theta * sin phi)
                       (sphereRadius * sin theta * sin phi)
                       (sphereRadius * cos phi))
           (LookAt (scenePosition w)) (color object)
  else if (shape =? "helix")%string then
    let helixRadius := 100 * spacing in
    let verticalSpacing := 15 * spacing in
    let turns := 10 in
    let helixAngle := (INR i / INR count) * PI * 2 * turns in
    let pos := Vector3.mk (helixRadius * cos helixAngle)
                          ((INR i - INR count / 2) * verticalSpacing * 0.2)
                          (helixRadius * sin helixAngle) in
    mkMesh pos (LookAt (Vector3.mk 0 (Vector3.y pos) 0)) (color object)
  else object.

(** [updateGlyphArrangement()]: the listener of the shape selector and of
    the spacing slider, also called when a font has been rendered. *)
Definition updateGlyphArrangement (w : World) : World :=
  let shape := shapeValue w in
  let w := set_knotDisplay w
             (if (shape =? "torus-klein-knot")%string then "flex" else "none")%string in
  if (List.length (children w) =? 0)%nat then w
  else
    let w := set_groupRotation w (Vector3.mk 0 0 0) in
    let spacing := spacingValue w in
    let count := List.length (children w) in
    if isAnimated shape
    then updateAnimatedGlyphs 0 w
    else set_children w (forEach (staticGlyph w count) (children w)).

(** A change of the configuration: the user picks a shape or moves the
    spacing slider, and the listener runs. *)
Definition set_shapeValue (w : World) (shape : string) : World :=
  mkWorld shape (spacingValue w) (pValue w) (qValue w)
          (knotDisplay w) (groupRotation w) (children w)
          (scenePosition w) (cameraPosition w).

Definition set_spacingValue (w : World) (spacing : R) : World :=
  mkWorld (shapeValue w) spacing (pValue w) (qValue w)
          (knotDisplay w) (groupRotation w) (children w)
          (scenePosition w) (cameraPosition w).

Definition onShapeChange (shape : string) (w : World) : World :=
  updateGlyphArrangement (set_shapeValue w shape).

Definition onSpacingInput (spacing : R) (w : World) : World :=
  updateGlyphArrangement (set_spacingValue w spacing).

Section Animate.

(** [controls.update(delta)]: the fly controls move the camera; how is the
    library's business. *)
Variable controlsUpdate : R -> Vec3 -> Vec3.

(** One frame of [animate()], given the clock's [delta] and [elapsedTime].
    Scheduling the next frame and rendering do not change the [World]. *)
Definition animate (delta elapsedTime : R) (w : World) : World :=
  let w := set_cameraPosition w (controlsUpdate delta (cameraPosition w)) in
  let shape := shapeValue w in
  let w := if isAnimated shape
           then updateAnimatedGlyphs elapsedTime w else w in
  if isStatic shape
  then
    if (0 <? List.length (children w))%nat
    then set_groupRotation w
           (Vector3.mk (Vector3.x (groupRotation w))
                       (Vector3.y (groupRotation w) + delta * 0.05)
                       (Vector3.z (groupRotation w)))
    else w
  else w.

(** The frames of a run: each carries its [delta] and [elapsedTime]. *)
Fixpoint frames (ticks : list (R * R)) (w : World) : World :=
  match ticks with
  | [] => w
  | (delta, elapsedTime) :: ticks' => frames ticks' (animate delta elapsedTime w)
  end.

End Animate.

(** ** Notions the properties use *)

(** The distance from the point [a] to the circle of radius [radius]
    around the origin in the xy-plane. *)
Definition circleDistance (radius : R) (a : Vec3) : R :=
  sqrt ((sqrt (Vector3.x a * Vector3.x a + Vector3.y a * Vector3.y a) - radius) ^ 2
        + Vector3.z a ^ 2).

(** The object of a world at index [i], if there is one. *)
Definition glyph (w : World) (i : nat) : option Mesh := nth_error (children w) i.

(** A mesh as [renderAllGlyphs] creates it: at the origin, not rotated,
    with the material colour [0x00ffdd]. *)
Definition freshGlyph : Mesh :=
  mkMesh (Vector3.mk 0 0 0) (Euler 0 0 0) (Hex 65501).

(** A world as [init] and [renderAllGlyphs] leave it, for a shape, a spacing
    and a number of glyphs: knot sliders at 2 and 3, camera at (0, 50, 600). *)
Definition freshWorld (shape : string) (spacing : R) (count : nat) : World :=
  mkWorld shape spacing 2 3 "none" (Vector3.mk 0 0 0)
          (repeat freshGlyph count) (Vector3.mk 0 0 0) (Vector3.mk 0 50 600).

(** The normal of the torus at the knot's point. *)
Definition torusNormal (u p q : R) : Vec3 :=
  Vector3.mk (cos (q * u) * cos (p * u)) (cos (q * u) * sin (p * u)) (sin (q * u)).

(** A world showing the torus knot, for knot parameters, a spacing and a
    number of glyphs. *)
Definition knotWorld (p q : Z) (spacing : R) (count : nat) : World :=
  mkWorld "torus-klein-knot" spacing p q "flex" (Vector3.mk 0 0 0)
          (repeat freshGlyph count) (Vector3.mk 0 0 0) (Vector3.mk 0 50 600).

(** The position of the circle shape, as a formula of the index, the count
    and the spacing. *)
Definition circlePos (spacing : R) (count i : nat) : Vec3 :=
  let r := Rmax 200 (INR count * 0.6) * spacing in
  Vector3.mk (r * cos ((INR i / INR count) * (2 * PI))) 0
             (r * sin ((INR i / INR count) * (2 * PI))).

(** The immersion of the Klein bottle that the klein branch evaluates, as a
    function of the two parameters. *)
Definition kleinSurface (scale u v : R) : Vec3 :=
  Vector3.mk
    (if Rlt_dec u PI
     then scale * (6 * cos u * (1 + sin u) + 4 * (1 - cos u / 2) * cos u * cos v)
     else scale * (6 * cos u * (1 + sin u) - 4 * (1 - cos u / 2) * cos v))
    (scale * (4 * (1 - cos u / 2) * sin v))
    (if Rlt_dec u PI
     then scale * (16 * sin u + 4 * (1 - cos u / 2) * sin u * cos v)
     else scale * (16 * sin u)).

(** The remainder of the floor division, [a - b * floor(a / b)]: the
    mathematical [a mod b]. *)
Definition floor_mod (a b : R) : R := a - b * Math_floor (a / b).

(** Two worlds with one arrangement configuration: shape, spacing and knot
    parameters. *)
Definition sameConfig (w1 w2 : World) : Prop :=
  shapeValue w1 = shapeValue w2 /\ spacingValue w1 = spacingValue w2
  /\ pValue w1 = pValue w2 /\ qValue w1 = qValue w2.

(** The positions of the objects, in order. *)
Definition positions (w : World) : list Vec3 := map position (children w).

(** The colours of the objects, in order. *)
Definition colors (w : World) : list Color := map color (children w).

(** Two worlds showing the Klein bottle with three glyphs that differ in
    everything but the configuration and the count. *)
Definition kleinWorldA : World := freshWorld "klein" 1.5 3.

Definition kleinWorldB : World :=
  mkWorld "klein" 1.5 2 3 "flex" (Vector3.mk 0 0.7 0)
          [mkMesh (Vector3.mk 1 2 3) (LookAt (Vector3.mk 4 5 6)) (HSL 0.5 0.8 0.6);
           freshGlyph;
           mkMesh (Vector3.mk 7 8 9) (Euler 1 1 1) (Hex 0)]
          (Vector3.mk 0 0 0) (Vector3.mk 10 20 30).

(** ** Loading a font: [renderAllGlyphs] and [handleFontUpload] *)

(** A glyph of [font.data.glyphs]: its outline [o], a string of path
    commands, when it has one. *)
Record GlyphData : Type := mkGlyphData { o : option string }.

(** [font.data.glyphs]: the glyphs by character, in the order in which
    [Object.keys] lists the characters. *)
Definition Glyphs : Type := list (string * GlyphData).

(** [glyphs[char]]. *)
Fixpoint glyphs_get (glyphs : Glyphs) (char : string) : option GlyphData :=
  match glyphs with
  | [] => None
  | (c, g) :: glyphs' => if (c =? char)%string then Some g else glyphs_get glyphs' char
  end.

(** [glyphs[char].o && glyphs[char].o.length > 0]. *)
Definition hasOutline (glyphs : Glyphs) (char : string) : bool :=
  match glyphs_get glyphs char with
  | Some g => match o g with
              | Some s => (0 <? String.length s)%nat
              | None => false
              end
  | None => false
  end.

(** The state of the page beside the [World]: the text of the status
    element and the mesh of the initial message, if it is in the scene. *)
Record App : Type := mkApp {
  world : World;
  statusText : string;
  initialText : option Mesh
}.

Definition set_statusText (app : App) (s : string) : App :=
  mkApp (world app) s (initialText app).

(** The loop [while (glyphGroup.children.length) { ... }] of
    [renderAllGlyphs]: each round removes the first child; what it returns
    is the list of children when the loop ends.  Disposing of geometries and
    materials is not modelled. *)
Fixpoint removeChildren (cs : list Mesh) : list Mesh :=
  match cs with
  | [] => []
  | _ :: cs' => removeChildren cs'
  end.

(** A number in a template literal, for a length: its decimal digits. *)
Definition numberToString (n : nat) : string :=
  NilZero.string_of_uint (Nat.to_uint n).

(** [renderAllGlyphs(font)], as a function of [font.data.glyphs].  A mesh
    carries no geometry here, so every character gives the same new mesh;
    [glyphGroup.add] appends it to the children. *)
Definition renderAllGlyphs (glyphs : Glyphs) (app : App) : App :=
  let initialText' := match initialText app with
                      | Some _ => None
                      | None => initialText app
                      end in
  let w := set_children (world app) (removeChildren (children (world app))) in
  let glyphChars := filter (hasOutline glyphs) (map fst glyphs) in
  if (List.length glyphChars =? 0)%nat then
    mkApp w "No renderable glyphs found." initialText'
  else
    let status := ("Rendering " ++ numberToString (List.length glyphChars)
                   ++ " glyphs...")%string in
    let w := fold_left (fun w (_ : string) => set_children w (children w ++ [freshGlyph]))
                       glyphChars w in
    let w := updateGlyphArrangement w in
    mkApp w (numberToString (List.length glyphChars) ++ " glyphs rendered.")%string
          initialText'.

Section Upload.

(** The bytes that the file reader delivers, and [new Font(new
    TTFLoader().parse(bytes))] as far as [renderAllGlyphs] uses it: the
    glyphs of the font, or nothing when the loader throws. *)
Variable ArrayBuffer : Type.
Variable parse : ArrayBuffer -> option Glyphs.

(** [handleFontUpload(event)], given the name of [event.target.files[0]] if
    there is a file: it sets the status and starts the reader. *)
Definition handleFontUpload (file : option string) (app : App) : App :=
  match file with
  | None => app
  | Some name => set_statusText app ("Loading " ++ name ++ "...")
  end.

(** [reader.onload], given [e.target.result] if there is one. *)
Definition readerOnload (result : option ArrayBuffer) (app : App) : App :=
  match result with
  | None => set_statusText app "Error reading file."
  | Some bytes =>
      match parse bytes with
      | Some glyphs => renderAllGlyphs glyphs app
      | None => set_statusText app "Failed to parse font file."
      end
  end.

(** [reader.onerror]. *)
Definition readerOnerror (app : App) : App :=
  set_statusText app "Error reading file.".

End Upload.

(** ** Notions the further properties use *)

(** The time that a run of frames takes: the sum of their deltas. *)
Definition totalDelta (ticks : list (R * R)) : R :=
  fold_right (fun tick acc => fst tick + acc) 0 ticks.


(** * Properties *)

(** ** [forEach] *)

Lemma forEach_from_length {A : Type} (f : nat -> A -> A) (l : list A) :
  forall k, List.length (forEach_from f k l) = List.length l.
Proof.
  induction l as [|a l IH]; intro k; simpl; [reflexivity|].
  now rewrite IH.
Qed.

Lemma forEach_length {A : Type} (f : nat -> A -> A) (l : list A) :
  List.length (forEach f l) = List.length l.
Proof. apply forEach_from_length. Qed.

Lemma forEach_from_nth {A : Type} (f : nat -> A -> A) (l : list A) :
  forall k i, nth_error (forEach_from f k l) i = option_map (f (k + i)%nat) (nth_error l i).
Proof.
  induction l as [|a l IH]; intros k i.
  - destruct i; reflexivity.
  - destruct i as [|i]; simpl.
    + now rewrite Nat.add_0_r.
    + rewrite IH. now replace (S k + i)%nat with (k + S i)%nat by lia.
Qed.

Lemma forEach_nth {A : Type} (f : nat -> A -> A) (l : list A) (i : nat) :
  nth_error (forEach f l) i = option_map (f i) (nth_error l i).
Proof. unfold forEach. now rewrite forEach_from_nth. Qed.

(** A callback that keeps a field of every element keeps the list of the
    fields. *)
Lemma forEach_from_map {A B : Type} (g : A -> B) (f : nat -> A -> A) (l : list A) :
  (forall i a, g (f i a) = g a) ->
  forall k, map g (forEach_from f k l) = map g l.
Proof.
  intros Hf. induction l as [|a l IH]; intro k; simpl; [reflexivity|].
  now rewrite Hf, IH.
Qed.

(** A callback whose result's field does not depend on the element gives
    the same list of fields on two lists of one length. *)
Lemma forEach_from_map_indep {A B : Type} (g : A -> B) (f f' : nat -> A -> A) :
  (forall i a a', g (f i a) = g (f' i a')) ->
  forall l l' k, List.length l = List.length l' ->
    map g (forEach_from f k l) = map g (forEach_from f' k l').
Proof.
  intros Hf. induction l as [|a l IH]; intros [|a' l'] k Hlen; simpl in *;
    try discriminate; [reflexivity|].
  f_equal; [apply Hf | apply IH; lia].
Qed.

(** ** What the arrangers write *)

Lemma updateAnimatedGlyphs_children (time : R) (w : World) :
  children (updateAnimatedGlyphs time w)
  = forEach (animatedGlyph w time (List.length (children w))) (children w).
Proof.
  unfold updateAnimatedGlyphs.
  destruct (children w) as [|m l] eqn:E; simpl; [exact E | reflexivity].
Qed.

(** [updateAnimatedGlyphs] writes the children only. *)
Lemma updateAnimatedGlyphs_frame (time : R) (w : World) :
  updateAnimatedGlyphs time w = set_children w (children (updateAnimatedGlyphs time w)).
Proof.
  unfold updateAnimatedGlyphs.
  destruct (List.length (children w) =? 0)%nat; [destruct w|]; reflexivity.
Qed.

(** The children after [updateGlyphArrangement], by the kind of shape. *)
Lemma updateGlyphArrangement_children (w : World) :
  children (updateGlyphArrangement w)
  = if isAnimated (shapeValue w)
    then forEach (animatedGlyph w 0 (List.length (children w))) (children w)
    else forEach (staticGlyph w (List.length (children w))) (children w).
Proof.
  unfold updateGlyphArrangement.
  cbn [set_knotDisplay children shapeValue].
  destruct (List.length (children w) =? 0)%nat eqn:E0.
  - apply Nat.eqb_eq, length_zero_iff_nil in E0.
    unfold set_knotDisplay. cbn [children]. rewrite E0.
    destruct (isAnimated (shapeValue w)); reflexivity.
  - destruct (isAnimated (shapeValue w)) eqn:EA.
    + rewrite updateAnimatedGlyphs_children. reflexivity.
    + reflexivity.
Qed.

(** ** Distance from a circle in the xy-plane *)

Lemma sqrt_square_nonneg (a : R) : 0 <= a -> sqrt (a * a) = a.
Proof. intro H. now apply sqrt_square. Qed.

Lemma sin_cos_square (a : R) : sin a * sin a + cos a * cos a = 1.
Proof. generalize (sin2_cos2 a). unfold Rsqr. trivial. Qed.

(** A point of the torus of radii [R0] and [r], a tube that does not reach
    the axis, is at distance [r] from the central circle. *)
Lemma torus_point_distance (R0 r a b : R) :
  0 <= r -> 0 <= R0 + r * cos b ->
  circleDistance R0 (Vector3.mk ((R0 + r * cos b) * cos a) ((R0 + r * cos b) * sin a) (r * sin b)) = r.
Proof.
  intros Hr Hc. unfold circleDistance. cbn [Vector3.x Vector3.y Vector3.z].
  replace ((R0 + r * cos b) * cos a * ((R0 + r * cos b) * cos a)
           + (R0 + r * cos b) * sin a * ((R0 + r * cos b) * sin a))
    with ((R0 + r * cos b) * (R0 + r * cos b) * (sin a * sin a + cos a * cos a))
    by ring.
  rewrite sin_cos_square, Rmult_1_r.
  rewrite (sqrt_square_nonneg _ Hc).
  replace ((R0 + r * cos b - R0) ^ 2 + (r * sin b) ^ 2)
    with (r * r * (sin b * sin b + cos b * cos b)) by ring.
  rewrite sin_cos_square, Rmult_1_r.
  now apply sqrt_square_nonneg.
Qed.

Lemma cos_ge_m1 (a : R) : -1 <= cos a.
Proof. generalize (COS_bound a). lra. Qed.

(** A point on the far side of the axis: when [R0 + r * cos b] is negative
    the point is nearer than [r] to the central circle. *)
Lemma torus_point_distance_folded (R0 r a b : R) :
  0 < R0 -> R0 + r * cos b < 0 ->
  circleDistance R0 (Vector3.mk ((R0 + r * cos b) * cos a) ((R0 + r * cos b) * sin a) (r * sin b))
  <> r.
Proof.
  intros HR Hc. unfold circleDistance. cbn [Vector3.x Vector3.y Vector3.z].
  replace ((R0 + r * cos b) * cos a * ((R0 + r * cos b) * cos a)
           + (R0 + r * cos b) * sin a * ((R0 + r * cos b) * sin a))
    with (- (R0 + r * cos b) * - (R0 + r * cos b) * (sin a * sin a + cos a * cos a))
    by ring.
  rewrite sin_cos_square, Rmult_1_r, sqrt_square by lra.
  replace ((- (R0 + r * cos b) - R0) ^ 2 + (r * sin b) ^ 2)
    with (r * r * (sin b * sin b + cos b * cos b) + 4 * R0 * (R0 + r * cos b)) by ring.
  rewrite sin_cos_square, Rmult_1_r.
  intro E.
  assert (Hsq : 0 <= r * r + 4 * R0 * (R0 + r * cos b)).
  { replace (r * r + 4 * R0 * (R0 + r * cos b))
      with ((2 * R0 + r * cos b) ^ 2 + r * r * (1 - cos b * cos b)) by ring.
    generalize (sin_cos_square b) (pow2_ge_0 (2 * R0 + r * cos b))
               (Rle_0_sqr (r * sin b)). unfold Rsqr. intros. nra. }
  generalize (sqrt_sqrt _ Hsq). rewrite E. nra.
Qed.

(** ** The objects after an arrangement *)

(** Every index below the count names an object, and the animated arranger
    replaces it by the callback's result. *)
Lemma updateAnimatedGlyphs_glyph (time : R) (w : World) (i : nat) :
  (i < List.length (children w))%nat ->
  exists m0, glyph w i = Some m0 /\
    glyph (updateAnimatedGlyphs time w) i
    = Some (animatedGlyph w time (List.length (children w)) i m0).
Proof.
  intro Hi. unfold glyph.
  destruct (nth_error (children w) i) as [m0|] eqn:E.
  - exists m0. split; [reflexivity|].
    now rewrite updateAnimatedGlyphs_children, forEach_nth, E.
  - apply nth_error_None in E. lia.
Qed.

Lemma updateGlyphArrangement_glyph (w : World) (i : nat) :
  (i < List.length (children w))%nat ->
  exists m0, glyph w i = Some m0 /\
    glyph (updateGlyphArrangement w) i
    = Some (if isAnimated (shapeValue w)
            then animatedGlyph w 0 (List.length (children w)) i m0
            else staticGlyph w (List.length (children w)) i m0).
Proof.
  intro Hi. unfold glyph.
  destruct (nth_error (children w) i) as [m0|] eqn:E.
  - exists m0. split; [reflexivity|].
    rewrite updateGlyphArrangement_children.
    destruct (isAnimated (shapeValue w)); now rewrite forEach_nth, E.
  - apply nth_error_None in E. lia.
Qed.

(** ** Mobius *)

(** The parameter [u] of the mobius branch. *)
Lemma mobiusPos_unfold (spacing time : R) (count i : nat) :
  let u := INR i / INR count * PI * 2 + time * 0.2 in
  mobiusPos spacing time count i
  = Vector3.mk ((150 * spacing + 30 * cos u) * cos u)
               ((150 * spacing + 30 * cos u) * sin u)
               (30 * sin u).
Proof.
  intro u. unfold mobiusPos. fold u.
  now replace (2 * u / 2) with u by field.
Qed.

(** C2, as amended.  For the mobius shape, every object [i] of a
    collection and every time, with [R = 150 * spacing] for a positive
    spacing and [u = (i / count) * 2 * PI + time * 0.2]: the position that
    [updateAnimatedGlyphs] writes is the one of the source's formulas, and
    its distance from the circle of radius [R] in the xy-plane is 30 exactly
    when [R + 30 * cos u] is not negative; this is so for every [u] when
    the spacing is at least 0.2, that is, when [R] is at least 30. *)
Theorem mobius_on_tube (w : World) (time : R) (i : nat) :
  shapeValue w = "mobius"%string ->
  0 < spacingValue w ->
  (i < List.length (children w))%nat ->
  let u := INR i / INR (List.length (children w)) * PI * 2 + time * 0.2 in
  exists m, glyph (updateAnimatedGlyphs time w) i = Some m /\
    position m = mobiusPos (spacingValue w) time (List.length (children w)) i /\
    (circleDistance (150 * spacingValue w) (position m) = 30
     <-> 0 <= 150 * spacingValue w + 30 * cos u) /\
    (1 / 5 <= spacingValue w ->
     circleDistance (150 * spacingValue w) (position m) = 30).
Proof.
  intros Hshape Hs Hi u.
  destruct (updateAnimatedGlyphs_glyph time w i Hi) as (m0 & _ & Hm).
  eexists. split; [exact Hm|].
  unfold animatedGlyph. rewrite Hshape.
  cbn [String.eqb Ascii.eqb Bool.eqb position].
  split; [reflexivity|].
  rewrite mobiusPos_unfold. fold u.
  assert (Hpos : 0 <= 150 * spacingValue w + 30 * cos u ->
                 circleDistance (150 * spacingValue w)
                   (Vector3.mk ((150 * spacingValue w + 30 * cos u) * cos u)
                               ((150 * spacingValue w + 30 * cos u) * sin u)
                               (30 * sin u)) = 30).
  { intro H. apply torus_point_distance; lra. }
  split; [split; [|exact Hpos]|].
  - intro E.
    destruct (Rle_dec 0 (150 * spacingValue w + 30 * cos u)) as [H|H]; [exact H|].
    exfalso. revert E. apply torus_point_distance_folded; lra.
  - intro H5. apply Hpos. generalize (cos_ge_m1 u). lra.
Qed.

Lemma mobius_on_tube_witness :
  exists m, glyph (updateAnimatedGlyphs 0 (freshWorld "mobius" 1 4)) 1 = Some m /\
    position m = mobiusPos 1 0 4 1 /\
    (circleDistance (150 * 1) (position m) = 30
     <-> 0 <= 150 * 1 + 30 * cos (INR 1 / INR 4 * PI * 2 + 0 * 0.2)) /\
    (1 / 5 <= 1 -> circleDistance (150 * 1) (position m) = 30).
Proof.
  apply (mobius_on_tube (freshWorld "mobius" 1 4) 0 1);
    [reflexivity | simpl; lra | simpl; lia].
Defined.

(** C2, as stated, fails.  With a spacing of 0.1 (so [R = 15]) and two
    objects, at time 0 object 1 has [u = PI] and is written to (15, 0, 0):
    a point of the circle of radius [R] itself, at distance 0 from it. *)
Lemma mobius_thin_ring_counterexample :
  exists m, glyph (updateAnimatedGlyphs 0 (freshWorld "mobius" 0.1 2)) 1 = Some m /\
    position m = Vector3.mk 15 0 0 /\
    circleDistance (150 * 0.1) (position m) = 0 /\
    circleDistance (150 * 0.1) (position m) <> 30.
Proof.
  destruct (updateAnimatedGlyphs_glyph 0 (freshWorld "mobius" 0.1 2) 1) as (m0 & _ & Hm);
    [simpl; lia|].
  eexists. split; [exact Hm|].
  unfold animatedGlyph.
  cbn [freshWorld shapeValue String.eqb Ascii.eqb Bool.eqb position spacingValue
       children repeat List.length].
  assert (P : mobiusPos 0.1 0 2 1 = Vector3.mk 15 0 0).
  { rewrite mobiusPos_unfold.
    replace (INR 1 / INR 2 * PI * 2 + 0 * 0.2) with PI by (simpl; field).
    rewrite cos_PI, sin_PI. f_equal; lra. }
  rewrite P.
  assert (E : circleDistance (150 * 0.1) (Vector3.mk 15 0 0) = 0).
  { unfold circleDistance. cbn [Vector3.x Vector3.y Vector3.z].
    replace (15 * 15 + 0 * 0) with (15 * 15) by lra.
    rewrite sqrt_square by lra.
    replace ((15 - 150 * 0.1) ^ 2 + 0 ^ 2) with 0 by lra.
    apply sqrt_0. }
  split; [reflexivity|]. split; [exact E|]. rewrite E. lra.
Qed.


(** ** Vector algebra *)

Lemma lengthSq_nonneg (a : Vec3) : 0 <= Vector3.lengthSq a.
Proof. unfold Vector3.lengthSq, Vector3.dot. nra. Qed.

Lemma length_sqr (a : Vec3) : Vector3.length a * Vector3.length a = Vector3.lengthSq a.
Proof. apply sqrt_sqrt, lengthSq_nonneg. Qed.

Lemma length_nonneg (a : Vec3) : 0 <= Vector3.length a.
Proof. apply sqrt_pos. Qed.

(** Lagrange's identity. *)
Lemma lengthSq_crossVectors (a b : Vec3) :
  Vector3.lengthSq (Vector3.crossVectors a b)
  = Vector3.lengthSq a * Vector3.lengthSq b - Vector3.dot a b ^ 2.
Proof. unfold Vector3.lengthSq, Vector3.dot, Vector3.crossVectors. simpl. ring. Qed.

Lemma dot_crossVectors_right (a b : Vec3) :
  Vector3.dot b (Vector3.crossVectors a b) = 0.
Proof. unfold Vector3.dot, Vector3.crossVectors. simpl. ring. Qed.

Lemma lengthSq_combination (a b : Vec3) (s t : R) :
  Vector3.lengthSq (Vector3.add (Vector3.multiplyScalar a s) (Vector3.multiplyScalar b t))
  = s ^ 2 * Vector3.lengthSq a + 2 * s * t * Vector3.dot a b + t ^ 2 * Vector3.lengthSq b.
Proof.
  unfold Vector3.lengthSq, Vector3.dot, Vector3.add, Vector3.multiplyScalar. simpl. ring.
Qed.

Lemma sub_add_cancel (a b : Vec3) : Vector3.sub (Vector3.add a b) a = b.
Proof.
  destruct a, b. unfold Vector3.sub, Vector3.add. simpl. f_equal; ring.
Qed.

(** [normalize] leaves a vector of length zero, and makes any other a unit
    vector. *)
Lemma normalize_cases (a : Vec3) :
  (Vector3.lengthSq a = 0 /\ Vector3.normalize a = a)
  \/ (Vector3.length a <> 0
      /\ Vector3.normalize a = Vector3.multiplyScalar a (1 / Vector3.length a)
      /\ Vector3.lengthSq (Vector3.normalize a) = 1).
Proof.
  unfold Vector3.normalize.
  destruct (Req_dec_T (Vector3.length a) 0) as [E|E].
  - left. split.
    + rewrite <- length_sqr, E. ring.
    + destruct a. unfold Vector3.divideScalar, Vector3.multiplyScalar. simpl.
      f_equal; field.
  - right. split; [exact E|]. split; [reflexivity|].
    unfold Vector3.divideScalar.
    replace (Vector3.lengthSq
               (Vector3.multiplyScalar a (1 / Vector3.length a)))
      with (Vector3.lengthSq a * (1 / Vector3.length a) ^ 2)
      by (unfold Vector3.lengthSq, Vector3.dot, Vector3.multiplyScalar; simpl; ring).
    rewrite <- length_sqr. now field.
Qed.

Lemma lengthSq_normalize_le (a : Vec3) : Vector3.lengthSq (Vector3.normalize a) <= 1.
Proof.
  destruct (normalize_cases a) as [[E0 En]|(_ & _ & E1)].
  - rewrite En, E0. lra.
  - rewrite E1. lra.
Qed.

(** ** Torus knot *)

Lemma lengthSq_torusNormal (u p q : R) : Vector3.lengthSq (torusNormal u p q) = 1.
Proof.
  unfold Vector3.lengthSq, Vector3.dot, torusNormal. simpl.
  replace (cos (q * u) * cos (p * u) * (cos (q * u) * cos (p * u))
           + cos (q * u) * sin (p * u) * (cos (q * u) * sin (p * u))
           + sin (q * u) * sin (q * u))
    with (cos (q * u) * cos (q * u) * (sin (p * u) * sin (p * u) + cos (p * u) * cos (p * u))
          + sin (q * u) * sin (q * u)) by ring.
  rewrite sin_cos_square, Rmult_1_r, Rplus_comm. apply sin_cos_square.
Qed.

(** Growing the tube radius by [e] moves the point by [e] along the
    normal. *)
Lemma getTorusKnotPos_tube (u p q radius tubeRadius e : R) :
  Vector3.sub (getTorusKnotPos u p q radius (tubeRadius + e))
              (getTorusKnotPos u p q radius tubeRadius)
  = Vector3.multiplyScalar (torusNormal u p q) e.
Proof.
  unfold getTorusKnotPos, torusNormal, Vector3.sub, Vector3.multiplyScalar. simpl.
  f_equal; ring.
Qed.

Lemma knotN_torusNormal (spacing : R) (p q : Z) (time : R) (count i : nat) :
  knotN spacing p q time count i = torusNormal (knotU time count i) (IZR p) (IZR q).
Proof.
  unfold knotN, knotP. cbv zeta. rewrite getTorusKnotPos_tube.
  set (n := torusNormal _ _ _).
  assert (Hl : Vector3.length (Vector3.multiplyScalar n 0.001) = 0.001).
  { unfold Vector3.length.
    replace (Vector3.lengthSq (Vector3.multiplyScalar n 0.001))
      with (Vector3.lengthSq n * (0.001 * 0.001))
      by (unfold Vector3.lengthSq, Vector3.dot, Vector3.multiplyScalar; simpl; ring).
    unfold n. rewrite lengthSq_torusNormal, Rmult_1_l. apply sqrt_square. lra. }
  unfold Vector3.normalize. rewrite Hl.
  destruct (Req_dec_T 0.001 0) as [E|_]; [lra|].
  destruct n. unfold Vector3.divideScalar, Vector3.multiplyScalar. simpl.
  f_equal; lra.
Qed.

Lemma knotP_distance (spacing : R) (p q : Z) (time : R) (count i : nat) :
  0 < spacing ->
  circleDistance (100 * spacing) (knotP spacing p q time count i) = 40 * spacing.
Proof.
  intro Hs. unfold knotP, getTorusKnotPos. cbv zeta.
  apply torus_point_distance; [lra|].
  generalize (cos_ge_m1 (IZR q * knotU time count i)). nra.
Qed.

(** The squared magnitude of the helical offset. *)
Lemma lengthSq_knotHelixOffset (spacing : R) (p q : Z) (time : R) (count i : nat) :
  let T := knotT spacing p q time count i in
  let N := knotN spacing p q time count i in
  let a := knotHelixAngle time count i in
  Vector3.lengthSq (knotHelixOffset spacing p q time count i)
  = 225 - 225 * (sin a * sin a) * (1 - (Vector3.lengthSq T - Vector3.dot T N ^ 2)).
Proof.
  intros T N a. unfold knotHelixOffset. cbv zeta. fold T N a.
  assert (HN : Vector3.lengthSq N = 1)
    by (unfold N; rewrite knotN_torusNormal; apply lengthSq_torusNormal).
  rewrite lengthSq_combination, dot_crossVectors_right, lengthSq_crossVectors, !HN.
  replace 225 with (225 * (sin a * sin a + cos a * cos a)) at 1
    by (rewrite sin_cos_square; ring).
  ring.
Qed.



(** The magnitude of the helical offset: never more than 15, and 15
    exactly when the offset has no binormal part or the tangent is a unit
    vector orthogonal to the normal. *)
Lemma length_knotHelixOffset (spacing : R) (p q : Z) (time : R) (count i : nat) :
  let T := knotT spacing p q time count i in
  let N := knotN spacing p q time count i in
  let a := knotHelixAngle time count i in
  Vector3.length (knotHelixOffset spacing p q time count i) <= 15
  /\ (Vector3.length (knotHelixOffset spacing p q time count i) = 15
      <-> sin a = 0 \/ (Vector3.lengthSq T = 1 /\ Vector3.dot T N = 0)).
Proof.
  intros T N a.
  pose proof (lengthSq_knotHelixOffset spacing p q time count i) as Hsq.
  cbv zeta in Hsq. fold T N a in Hsq.
  pose proof (lengthSq_normalize_le
                (Vector3.sub (getTorusKnotPos (knotU time count i + 0.001) (IZR p) (IZR q)
                                (100 * spacing) (40 * spacing))
                             (knotP spacing p q time count i))) as HT.
  change (Vector3.lengthSq T <= 1) in HT.
  set (o := knotHelixOffset spacing p q time count i) in *.
  pose proof (lengthSq_nonneg o) as Ho.
  pose proof (length_sqr o) as Hl.
  pose proof (length_nonneg o) as Hl0.
  set (k := Vector3.lengthSq T - Vector3.dot T N ^ 2) in *.
  assert (Hk : k <= 1) by (unfold k; nra).
  assert (Hs : 0 <= sin a * sin a) by nra.
  assert (Hle : Vector3.lengthSq o <= 225) by (rewrite Hsq; nra).
  split; [nra|].
  split.
  - intro E. rewrite E in Hl.
    assert (Hz : (sin a * sin a) * (1 - k) = 0) by lra.
    apply Rmult_integral in Hz. destruct Hz as [Hz|Hz].
    + left. apply Rmult_integral in Hz. tauto.
    + right. unfold k in Hz. split; nra.
  - intro H.
    assert (Hz : Vector3.lengthSq o = 225).
    { rewrite Hsq. destruct H as [H|[H1 H2]].
      - rewrite H. ring.
      - unfold k. rewrite H1, H2. ring. }
    rewrite Hz in Hl. nra.
Qed.

(** C1, as amended.  For the torus-klein-knot shape, a positive spacing,
    every object [i] of a collection, every time and all knot parameters,
    with [P] the point of the knot at [u = ((i / count) + time * 0.05) * 2 * PI]
    for the radii [100 * spacing] and [40 * spacing]: the distance from [P]
    to the circle of radius [100 * spacing] in the xy-plane is
    [40 * spacing]; the position written is [P] plus the helical offset;
    the magnitude of the offset is at most 15, and it is 15 exactly when the
    sine of the helix angle is zero or the finite-difference tangent [T] is
    a unit vector orthogonal to the normal [N]. *)
Theorem knot_tube_and_helix (w : World) (time : R) (i : nat) :
  shapeValue w = "torus-klein-knot"%string ->
  0 < spacingValue w ->
  (i < List.length (children w))%nat ->
  let count := List.length (children w) in
  let P := knotP (spacingValue w) (pValue w) (qValue w) time count i in
  let T := knotT (spacingValue w) (pValue w) (qValue w) time count i in
  let N := knotN (spacingValue w) (pValue w) (qValue w) time count i in
  let a := knotHelixAngle time count i in
  exists m, glyph (updateAnimatedGlyphs time w) i = Some m /\
    circleDistance (100 * spacingValue w) P = 40 * spacingValue w /\
    position m = Vector3.add P (knotHelixOffset (spacingValue w) (pValue w) (qValue w) time count i) /\
    Vector3.length (Vector3.sub (position m) P) <= 15 /\
    (Vector3.length (Vector3.sub (position m) P) = 15
     <-> sin a = 0 \/ (Vector3.lengthSq T = 1 /\ Vector3.dot T N = 0)).
Proof.
  intros Hshape Hs Hi count P T N a.
  destruct (updateAnimatedGlyphs_glyph time w i Hi) as (m0 & _ & Hm).
  eexists. split; [exact Hm|].
  unfold animatedGlyph. rewrite Hshape.
  cbn [String.eqb Ascii.eqb Bool.eqb position].
  split; [now apply knotP_distance|].
  split; [reflexivity|].
  unfold knotPos. fold count P. rewrite sub_add_cancel.
  apply length_knotHelixOffset.
Qed.

Lemma knot_tube_and_helix_witness :
  exists m, glyph (updateAnimatedGlyphs 0 (knotWorld 2 3 1 8)) 1 = Some m /\
    circleDistance (100 * 1) (knotP 1 2 3 0 8 1) = 40 * 1 /\
    position m = Vector3.add (knotP 1 2 3 0 8 1) (knotHelixOffset 1 2 3 0 8 1) /\
    Vector3.length (Vector3.sub (position m) (knotP 1 2 3 0 8 1)) <= 15 /\
    (Vector3.length (Vector3.sub (position m) (knotP 1 2 3 0 8 1)) = 15
     <-> sin (knotHelixAngle 0 8 1) = 0
         \/ (Vector3.lengthSq (knotT 1 2 3 0 8 1) = 1
             /\ Vector3.dot (knotT 1 2 3 0 8 1) (knotN 1 2 3 0 8 1) = 0)).
Proof.
  apply (knot_tube_and_helix (knotWorld 2 3 1 8) 0 1);
    [reflexivity | simpl; lra | simpl; lia].
Defined.

Lemma cos_lt_1_small (a : R) : 0 < a <= 1 -> cos a < 1.
Proof.
  intros [H0 H1]. rewrite <- cos_0.
  pose proof PI2_1.
  apply cos_decreasing_1; lra.
Qed.

(** C1, as stated, fails.  With p = q = 4, spacing 1 and sixteen objects,
    at time 0 object 1 has [u = PI / 8] and helix angle [PI / 2], so the
    offset is 15 times the binormal [T x N]; the normal is (0, 0, 1) and the
    chord from [P] to the knot's point at [u + 0.001] drops by
    [40 - 40 * cos 0.004] along it, so [T] is not orthogonal to [N] and the
    offset is shorter than 15. *)
Lemma knot_helix_counterexample :
  exists m, glyph (updateAnimatedGlyphs 0 (knotWorld 4 4 1 16)) 1 = Some m /\
    Vector3.length (Vector3.sub (position m) (knotP 1 4 4 0 16 1)) <> 15.
Proof.
  destruct (updateAnimatedGlyphs_glyph 0 (knotWorld 4 4 1 16) 1) as (m0 & _ & Hm);
    [simpl; lia|].
  eexists. split; [exact Hm|].
  unfold animatedGlyph.
  cbn [knotWorld shapeValue String.eqb Ascii.eqb Bool.eqb position spacingValue
       pValue qValue children].
  rewrite repeat_length.
  unfold knotPos. rewrite sub_add_cancel.
  intro E. apply length_knotHelixOffset in E.
  assert (Hu : knotU 0 16 1 = PI / 8) by (unfold knotU; simpl; field).
  destruct E as [E|[E1 E2]].
  - revert E. unfold knotHelixAngle.
    replace (0 * 5 + INR 1 / INR 16 * PI * 8) with (PI / 2) by (simpl; field).
    rewrite sin_PI2. lra.
  - rewrite knotN_torusNormal, Hu in E2.
    unfold torusNormal in E2.
    replace (4 * (PI / 8)) with (PI / 2) in E2 by field.
    rewrite cos_PI2, sin_PI2 in E2.
    unfold Vector3.dot in E2. cbn [Vector3.x Vector3.y Vector3.z] in E2.
    assert (Ez : Vector3.z (knotT 1 4 4 0 16 1) = 0) by lra.
    clear E2. unfold knotT in *. cbv zeta in *.
    set (D := Vector3.sub _ _) in *.
    assert (HD : Vector3.z D = 40 * cos 0.004 - 40).
    { unfold D, knotP, getTorusKnotPos, Vector3.sub. cbn [Vector3.z].
      rewrite Hu.
      replace (4 * (PI / 8 + 0.001)) with (PI / 2 + 0.004) by lra.
      replace (4 * (PI / 8)) with (PI / 2) by field.
      rewrite sin_plus, sin_PI2, cos_PI2. ring. }
    pose proof (cos_lt_1_small 0.004 ltac:(lra)) as Hc.
    destruct (normalize_cases D) as [[H0 Hn]|(Hl & Hn & _)].
    + rewrite Hn, H0 in E1. lra.
    + rewrite Hn in Ez. unfold Vector3.multiplyScalar in Ez. cbn [Vector3.z] in Ez.
      rewrite HD in Ez.
      apply Rmult_integral in Ez. destruct Ez as [Ez|Ez]; [lra|].
      pose proof (length_nonneg D).
      assert (0 < 1 / Vector3.length D) by (apply Rdiv_lt_0_compat; lra).
      lra.
Qed.


(** ** Circle *)

Lemma staticGlyph_circle (w : World) (count i : nat) (m0 : Mesh) :
  shapeValue w = "circle"%string ->
  position (staticGlyph w count i m0) = circlePos (spacingValue w) count i.
Proof.
  intro Hshape. unfold staticGlyph, circlePos. rewrite Hshape.
  cbn [String.eqb Ascii.eqb Bool.eqb position].
  now replace (INR i / INR count * PI * 2) with (INR i / INR count * (2 * PI)) by ring.
Qed.

Lemma circlePos_4 :
  map (circlePos 1 4) [0; 1; 2; 3]%nat
  = [Vector3.mk 200 0 0; Vector3.mk 0 0 200; Vector3.mk (-200) 0 0; Vector3.mk 0 0 (-200)].
Proof.
  assert (Hr : Rmax 200 (INR 4 * 0.6) * 1 = 200).
  { rewrite Rmax_left; [lra | simpl; lra]. }
  unfold map, circlePos. rewrite Hr.
  replace (INR 0 / INR 4 * (2 * PI)) with 0 by (simpl; field).
  replace (INR 1 / INR 4 * (2 * PI)) with (PI / 2) by (simpl; field).
  replace (INR 2 / INR 4 * (2 * PI)) with PI by (simpl; field).
  replace (INR 3 / INR 4 * (2 * PI)) with (3 * (PI / 2)) by (simpl; field).
  rewrite cos_0, sin_0, cos_PI2, sin_PI2, cos_PI, sin_PI, cos_3PI2, sin_3PI2.
  repeat (f_equal; try lra).
Qed.

(** C3.  For the circle shape and every object [i] of a collection of
    [count] objects, [updateGlyphArrangement] writes the position
    [(r * cos a, 0, r * sin a)] with [r = max(200, count * 0.6) * spacing]
    and [a = (i / count) * 2 * PI]; with four objects and spacing 1 the
    positions are (200, 0, 0), (0, 0, 200), (-200, 0, 0) and (0, 0, -200). *)
Theorem circle_positions :
  (forall (w : World) (i : nat),
     shapeValue w = "circle"%string ->
     0 < spacingValue w ->
     (i < List.length (children w))%nat ->
     let count := List.length (children w) in
     let r := Rmax 200 (INR count * 0.6) * spacingValue w in
     exists m, glyph (updateGlyphArrangement w) i = Some m /\
       position m = Vector3.mk (r * cos ((INR i / INR count) * (2 * PI))) 0
                               (r * sin ((INR i / INR count) * (2 * PI))))
  /\
  (forall w : World,
     shapeValue w = "circle"%string ->
     spacingValue w = 1 ->
     List.length (children w) = 4%nat ->
     map position (children (updateGlyphArrangement w))
     = [Vector3.mk 200 0 0; Vector3.mk 0 0 200;
        Vector3.mk (-200) 0 0; Vector3.mk 0 0 (-200)]).
Proof.
  split.
  - intros w i Hshape _ Hi count r.
    destruct (updateGlyphArrangement_glyph w i Hi) as (m0 & _ & Hm).
    eexists. split; [exact Hm|].
    rewrite Hshape. cbn [isAnimated String.eqb Ascii.eqb Bool.eqb orb].
    now rewrite staticGlyph_circle.
  - intros w Hshape Hsp Hlen.
    rewrite updateGlyphArrangement_children, Hshape, Hlen.
    cbn [isAnimated String.eqb Ascii.eqb Bool.eqb orb].
    destruct (children w) as [|a [|b [|c [|d [|e l]]]]]; try discriminate.
    unfold forEach, forEach_from, map.
    rewrite !staticGlyph_circle, Hsp by exact Hshape.
    exact circlePos_4.
Qed.

Lemma circle_positions_witness :
  (exists m, glyph (updateGlyphArrangement (freshWorld "circle" 2 5)) 3 = Some m /\
     position m = Vector3.mk (Rmax 200 (INR 5 * 0.6) * 2 * cos ((INR 3 / INR 5) * (2 * PI))) 0
                             (Rmax 200 (INR 5 * 0.6) * 2 * sin ((INR 3 / INR 5) * (2 * PI))))
  /\ map position (children (updateGlyphArrangement (freshWorld "circle" 1 4)))
     = [Vector3.mk 200 0 0; Vector3.mk 0 0 200;
        Vector3.mk (-200) 0 0; Vector3.mk 0 0 (-200)].
Proof.
  split.
  - apply (proj1 circle_positions (freshWorld "circle" 2 5) 3%nat);
      [reflexivity | simpl; lra | simpl; lia].
  - apply (proj2 circle_positions (freshWorld "circle" 1 4)); reflexivity.
Defined.

(** ** Klein *)

Lemma kleinPos_surface (spacing time : R) (count i : nat) :
  kleinPos spacing time count i
  = kleinSurface (30 * spacing) (INR i / INR count * (2 * PI)) (time * 0.5).
Proof.
  unfold kleinPos, kleinSurface. cbv zeta.
  now replace (INR i / INR count * PI * 2) with (INR i / INR count * (2 * PI)) by ring.
Qed.

Lemma klein_glyph (w : World) (time : R) (i : nat) :
  shapeValue w = "klein"%string ->
  (i < List.length (children w))%nat ->
  exists m, glyph (updateAnimatedGlyphs time w) i = Some m /\
    position m = kleinSurface (30 * spacingValue w)
                   (INR i / INR (List.length (children w)) * (2 * PI)) (time * 0.5).
Proof.
  intros Hshape Hi.
  destruct (updateAnimatedGlyphs_glyph time w i Hi) as (m0 & _ & Hm).
  eexists. split; [exact Hm|].
  unfold animatedGlyph. rewrite Hshape.
  cbn [String.eqb Ascii.eqb Bool.eqb position].
  apply kleinPos_surface.
Qed.

(** C4.  For the klein shape the position of object [i] at time [t] is the
    point of one surface at the parameters [u = (i / count) * 2 * PI], in
    which the time does not occur, and [v = t * 0.5], in which the index
    does not occur: all objects share [v]. *)
Theorem klein_lockstep (w : World) (time : R) (i : nat) :
  shapeValue w = "klein"%string ->
  (i < List.length (children w))%nat ->
  let count := List.length (children w) in
  let u := INR i / INR count * (2 * PI) in
  let v := time * 0.5 in
  exists m, glyph (updateAnimatedGlyphs time w) i = Some m /\
    position m = kleinSurface (30 * spacingValue w) u v.
Proof. intros Hshape Hi count u v. now apply klein_glyph. Qed.

Lemma klein_lockstep_witness :
  exists m, glyph (updateAnimatedGlyphs 7 (freshWorld "klein" 1 5)) 2 = Some m /\
    position m = kleinSurface (30 * 1) (INR 2 / INR 5 * (2 * PI)) (7 * 0.5).
Proof.
  apply (klein_lockstep (freshWorld "klein" 1 5) 7 2); [reflexivity | simpl; lia].
Defined.

(** C10.  For the klein shape and an object whose [u = (i / count) * 2 * PI]
    is at least [PI], the z-coordinate written at every time is
    [30 * spacing * 16 * sin u], so it is the same at any two times; x
    carries a [cos v] term and y a [sin v] term, [v = time * 0.5], and for a
    positive spacing both do take different values at different times.  An
    object with [u < PI] has a [cos v] term in x and in z. *)
Theorem klein_upper_z_fixed (w : World) (i : nat) :
  shapeValue w = "klein"%string ->
  (i < List.length (children w))%nat ->
  let count := List.length (children w) in
  let scale := 30 * spacingValue w in
  let u := INR i / INR count * (2 * PI) in
  let pos := fun time => option_map position (glyph (updateAnimatedGlyphs time w) i) in
  (forall time, exists p, pos time = Some p /\
     Vector3.y p = scale * (4 * (1 - cos u / 2) * sin (time * 0.5)) /\
     (PI <= u ->
      Vector3.z p = 30 * spacingValue w * 16 * sin u /\
      Vector3.x p = scale * (6 * cos u * (1 + sin u) - 4 * (1 - cos u / 2) * cos (time * 0.5))) /\
     (u < PI ->
      Vector3.x p = scale * (6 * cos u * (1 + sin u)
                             + 4 * (1 - cos u / 2) * cos u * cos (time * 0.5)) /\
      Vector3.z p = scale * (16 * sin u + 4 * (1 - cos u / 2) * sin u * cos (time * 0.5))))
  /\ (PI <= u ->
      (forall t1 t2, option_map Vector3.z (pos t1) = option_map Vector3.z (pos t2))
      /\ (0 < spacingValue w ->
          option_map Vector3.x (pos 0) <> option_map Vector3.x (pos (2 * PI))
          /\ option_map Vector3.y (pos 0) <> option_map Vector3.y (pos PI))).
Proof.
  intros Hshape Hi count scale u pos.
  assert (Hpos : forall time, pos time = Some (kleinSurface scale u (time * 0.5))).
  { intro time. unfold pos.
    destruct (klein_glyph w time i Hshape Hi) as (m & Hg & Hp).
    rewrite Hg. cbn [option_map]. now rewrite Hp. }
  split.
  - intro time. eexists. split; [apply Hpos|].
    unfold kleinSurface. cbn [Vector3.x Vector3.y Vector3.z].
    split; [reflexivity|].
    destruct (Rlt_dec u PI) as [Hu|Hu]; split; intro H; try lra; split; try reflexivity.
    unfold scale. ring.
  - intro Hu. split.
    + intros t1 t2. rewrite !Hpos. unfold kleinSurface. cbn [option_map Vector3.z].
      destruct (Rlt_dec u PI) as [Hu'|Hu']; [lra|reflexivity].
    + intro Hs. rewrite !Hpos. unfold kleinSurface. cbn [option_map Vector3.x Vector3.y].
      destruct (Rlt_dec u PI) as [Hu'|_]; [lra|].
      replace (0 * 0.5) with 0 by lra.
      replace (2 * PI * 0.5) with PI by lra.
      replace (PI * 0.5) with (PI / 2) by lra.
      rewrite cos_0, cos_PI, sin_0, sin_PI2.
      pose proof (COS_bound u) as [_ Hc].
      assert (0 < scale * (1 - cos u / 2)) by (unfold scale; nra).
      split; intro E; injection E; intro E'; nra.
Qed.

Lemma klein_upper_z_fixed_witness :
  let w := freshWorld "klein" 1 4 in
  let u := INR 2 / INR 4 * (2 * PI) in
  let pos := fun time => option_map position (glyph (updateAnimatedGlyphs time w) 2) in
  (forall time, exists p, pos time = Some p /\
     Vector3.y p = 30 * 1 * (4 * (1 - cos u / 2) * sin (time * 0.5)) /\
     (PI <= u ->
      Vector3.z p = 30 * 1 * 16 * sin u /\
      Vector3.x p = 30 * 1 * (6 * cos u * (1 + sin u) - 4 * (1 - cos u / 2) * cos (time * 0.5))) /\
     (u < PI ->
      Vector3.x p = 30 * 1 * (6 * cos u * (1 + sin u)
                             + 4 * (1 - cos u / 2) * cos u * cos (time * 0.5)) /\
      Vector3.z p = 30 * 1 * (16 * sin u + 4 * (1 - cos u / 2) * sin u * cos (time * 0.5))))
  /\ (PI <= u ->
      (forall t1 t2, option_map Vector3.z (pos t1) = option_map Vector3.z (pos t2))
      /\ (0 < 1 ->
          option_map Vector3.x (pos 0) <> option_map Vector3.x (pos (2 * PI))
          /\ option_map Vector3.y (pos 0) <> option_map Vector3.y (pos PI))).
Proof.
  apply (klein_upper_z_fixed (freshWorld "klein" 1 4) 2); [reflexivity | simpl; lia].
Defined.


(** ** Determinism *)

Lemma animatedGlyph_position (w1 w2 : World) (time : R) (count i : nat) (a1 a2 : Mesh) :
  sameConfig w1 w2 -> isAnimated (shapeValue w1) = true ->
  position (animatedGlyph w1 time count i a1) = position (animatedGlyph w2 time count i a2).
Proof.
  intros (Hs & Hsp & Hp & Hq) Ha. unfold animatedGlyph.
  rewrite <- Hs, <- Hsp, <- Hp, <- Hq.
  unfold isAnimated in Ha.
  destruct (shapeValue w1 =? "mobius")%string; [reflexivity|].
  destruct (shapeValue w1 =? "klein")%string; [reflexivity|].
  destruct (shapeValue w1 =? "torus-klein-knot")%string; [reflexivity|].
  discriminate.
Qed.

Lemma staticGlyph_position (w1 w2 : World) (count i : nat) (a1 a2 : Mesh) :
  sameConfig w1 w2 -> isStatic (shapeValue w1) = true ->
  position (staticGlyph w1 count i a1) = position (staticGlyph w2 count i a2).
Proof.
  intros (Hs & Hsp & _) Ha. unfold staticGlyph.
  rewrite <- Hs, <- Hsp.
  unfold isStatic in Ha.
  destruct (shapeValue w1 =? "circle")%string; [reflexivity|].
  destruct (shapeValue w1 =? "grid")%string; [reflexivity|].
  destruct (shapeValue w1 =? "sphere")%string; [reflexivity|].
  destruct (shapeValue w1 =? "helix")%string; [reflexivity|].
  discriminate.
Qed.

Lemma updateAnimatedGlyphs_positions (w1 w2 : World) (time : R) :
  sameConfig w1 w2 -> isAnimated (shapeValue w1) = true ->
  List.length (children w1) = List.length (children w2) ->
  positions (updateAnimatedGlyphs time w1) = positions (updateAnimatedGlyphs time w2).
Proof.
  intros Hc Ha Hlen. unfold positions.
  rewrite !updateAnimatedGlyphs_children, <- Hlen.
  apply forEach_from_map_indep; [|exact Hlen].
  intros. now apply animatedGlyph_position.
Qed.

Lemma supported_cases (shape : string) :
  supported shape = true ->
  (isAnimated shape = true)
  \/ (isAnimated shape = false /\ isStatic shape = true).
Proof.
  unfold supported. destruct (isAnimated shape); [now left|].
  rewrite Bool.orb_false_r. now right.
Qed.

Lemma updateGlyphArrangement_positions (w1 w2 : World) :
  sameConfig w1 w2 -> supported (shapeValue w1) = true ->
  List.length (children w1) = List.length (children w2) ->
  positions (updateGlyphArrangement w1) = positions (updateGlyphArrangement w2).
Proof.
  intros Hc Hsup Hlen. unfold positions.
  rewrite !updateGlyphArrangement_children, <- Hlen.
  destruct Hc as (Hs & Hc). rewrite <- Hs.
  destruct (supported_cases _ Hsup) as [Ha|[Ha Hst]]; rewrite Ha.
  - apply forEach_from_map_indep; [|exact Hlen].
    intros. apply animatedGlyph_position; [split|]; assumption.
  - apply forEach_from_map_indep; [|exact Hlen].
    intros. apply staticGlyph_position; [split|]; assumption.
Qed.

Lemma updateAnimatedGlyphs_config (time : R) (w : World) :
  sameConfig w (updateAnimatedGlyphs time w)
  /\ List.length (children (updateAnimatedGlyphs time w)) = List.length (children w).
Proof.
  split.
  - rewrite updateAnimatedGlyphs_frame. repeat split.
  - now rewrite updateAnimatedGlyphs_children, forEach_length.
Qed.

Lemma updateGlyphArrangement_config (w : World) :
  sameConfig w (updateGlyphArrangement w)
  /\ List.length (children (updateGlyphArrangement w)) = List.length (children w).
Proof.
  split.
  - unfold updateGlyphArrangement.
    destruct (List.length _ =? 0)%nat; [repeat split|].
    destruct (isAnimated (shapeValue w)); [|repeat split].
    rewrite updateAnimatedGlyphs_frame. repeat split.
  - rewrite updateGlyphArrangement_children.
    destruct (isAnimated (shapeValue w)); apply forEach_length.
Qed.

(** C5.  For a supported shape the positions that an arranger writes are
    determined by the index, the count, the configuration (shape, spacing,
    knot parameters) and the time: two worlds with one configuration and
    one count get the same positions whatever their objects' earlier
    positions, rotations and colours, the group's rotation, the camera and
    the knot controls' display are; and an arranger run a second time
    writes the same positions again. *)
Theorem arrangement_deterministic (w1 w2 : World) (time : R) :
  supported (shapeValue w1) = true ->
  sameConfig w1 w2 ->
  List.length (children w1) = List.length (children w2) ->
  positions (updateGlyphArrangement w1) = positions (updateGlyphArrangement w2)
  /\ positions (updateGlyphArrangement (updateGlyphArrangement w1))
     = positions (updateGlyphArrangement w1)
  /\ (isAnimated (shapeValue w1) = true ->
      positions (updateAnimatedGlyphs time w1) = positions (updateAnimatedGlyphs time w2)
      /\ positions (updateAnimatedGlyphs time (updateAnimatedGlyphs time w1))
         = positions (updateAnimatedGlyphs time w1)).
Proof.
  intros Hsup Hc Hlen.
  split; [now apply updateGlyphArrangement_positions|].
  split.
  - symmetry. apply updateGlyphArrangement_positions; [|assumption|].
    + apply (proj1 (updateGlyphArrangement_config w1)).
    + symmetry. apply (proj2 (updateGlyphArrangement_config w1)).
  - intro Ha. split; [now apply updateAnimatedGlyphs_positions|].
    symmetry. apply updateAnimatedGlyphs_positions; [|assumption|].
    + apply (proj1 (updateAnimatedGlyphs_config time w1)).
    + symmetry. apply (proj2 (updateAnimatedGlyphs_config time w1)).
Qed.

Lemma arrangement_deterministic_witness :
  positions (updateGlyphArrangement kleinWorldA) = positions (updateGlyphArrangement kleinWorldB)
  /\ positions (updateGlyphArrangement (updateGlyphArrangement kleinWorldA))
     = positions (updateGlyphArrangement kleinWorldA)
  /\ positions (updateAnimatedGlyphs 2 kleinWorldA) = positions (updateAnimatedGlyphs 2 kleinWorldB)
  /\ positions (updateAnimatedGlyphs 2 (updateAnimatedGlyphs 2 kleinWorldA))
     = positions (updateAnimatedGlyphs 2 kleinWorldA).
Proof.
  destruct (arrangement_deterministic kleinWorldA kleinWorldB 2) as (H1 & H2 & H3);
    [reflexivity | repeat split | reflexivity |].
  split; [exact H1|]. split; [exact H2|]. apply H3. reflexivity.
Defined.

(** ** The empty collection *)

Lemma updateAnimatedGlyphs_empty (time : R) (w : World) :
  children w = [] -> updateAnimatedGlyphs time w = w.
Proof. intro E. unfold updateAnimatedGlyphs. now rewrite E. Qed.

Lemma updateGlyphArrangement_empty (w : World) :
  children w = [] ->
  updateGlyphArrangement w
  = set_knotDisplay w (if (shapeValue w =? "torus-klein-knot")%string
                       then "flex"%string else "none"%string).
Proof.
  intro E. unfold updateGlyphArrangement.
  unfold set_knotDisplay at 1. cbn [children]. now rewrite E.
Qed.

(** C6.  With an empty collection the animated arranger returns the world
    as it is, at every time and for every configuration, and
    [updateGlyphArrangement] returns it with nothing but the knot controls'
    display written: no object is touched (there is none before and none
    after) and the group's rotation, configuration, scene and camera are as
    before.  Both are total functions: there is no failure to raise. *)
Theorem empty_collection_untouched (w : World) (time : R) :
  children w = [] ->
  updateAnimatedGlyphs time w = w
  /\ children (updateGlyphArrangement w) = children w
  /\ groupRotation (updateGlyphArrangement w) = groupRotation w
  /\ updateGlyphArrangement w = set_knotDisplay w (knotDisplay (updateGlyphArrangement w)).
Proof.
  intro E. split; [now apply updateAnimatedGlyphs_empty|].
  rewrite (updateGlyphArrangement_empty w E). repeat split.
Qed.

Lemma empty_collection_untouched_witness :
  let w := freshWorld "sphere" 2 0 in
  updateAnimatedGlyphs 3 w = w
  /\ children (updateGlyphArrangement w) = children w
  /\ groupRotation (updateGlyphArrangement w) = groupRotation w
  /\ updateGlyphArrangement w = set_knotDisplay w (knotDisplay (updateGlyphArrangement w)).
Proof.
  apply (empty_collection_untouched (freshWorld "sphere" 2 0) 3). reflexivity.
Defined.

(** C7, as amended.  With an empty collection [updateGlyphArrangement]
    writes the knot controls' display from the shape (flex for
    torus-klein-knot, none for any other) and returns: the group's rotation
    is not reset and no arranger runs, so everything but the display is as
    before. *)
Theorem dispatcher_empty_sets_display_only (w : World) :
  children w = [] ->
  updateGlyphArrangement w
  = set_knotDisplay w (if (shapeValue w =? "torus-klein-knot")%string
                       then "flex"%string else "none"%string)
  /\ groupRotation (updateGlyphArrangement w) = groupRotation w
  /\ children (updateGlyphArrangement w) = [].
Proof.
  intro E. rewrite (updateGlyphArrangement_empty w E).
  repeat split. exact E.
Qed.

Lemma dispatcher_empty_sets_display_only_witness :
  let w := mkWorld "grid" 1 2 3 "flex" (Vector3.mk 0 0.3 0) []
                   (Vector3.mk 0 0 0) (Vector3.mk 0 50 600) in
  updateGlyphArrangement w
  = set_knotDisplay w (if (shapeValue w =? "torus-klein-knot")%string
                       then "flex"%string else "none"%string)
  /\ groupRotation (updateGlyphArrangement w) = groupRotation w
  /\ children (updateGlyphArrangement w) = [].
Proof.
  apply (dispatcher_empty_sets_display_only
           (mkWorld "grid" 1 2 3 "flex" (Vector3.mk 0 0.3 0) []
                    (Vector3.mk 0 0 0) (Vector3.mk 0 50 600))).
  reflexivity.
Defined.

(** C7, as stated, fails.  Before any font is loaded the knot controls are
    hidden; when the user picks the torus-klein-knot shape the dispatcher
    shows them, although the collection is empty. *)
Lemma dispatcher_empty_display_counterexample :
  let w := freshWorld "circle" 1 0 in
  children w = []
  /\ knotDisplay w = "none"%string
  /\ knotDisplay (onShapeChange "torus-klein-knot" w) = "flex"%string
  /\ knotDisplay (onShapeChange "torus-klein-knot" w) <> knotDisplay w.
Proof.
  cbv zeta. repeat split. discriminate.
Qed.

(** ** The group's rotation *)

Lemma animate_children_length (controlsUpdate : R -> Vec3 -> Vec3)
      (delta elapsedTime : R) (w : World) :
  List.length (children (animate controlsUpdate delta elapsedTime w))
  = List.length (children w).
Proof.
  unfold animate. cbn [set_cameraPosition shapeValue].
  set (w1 := if isAnimated (shapeValue w) then _ else _).
  assert (H1 : List.length (children w1) = List.length (children w)).
  { unfold w1. destruct (isAnimated (shapeValue w)); [|reflexivity].
    now rewrite updateAnimatedGlyphs_children, forEach_length. }
  destruct (isStatic (shapeValue w)); [|exact H1].
  destruct (0 <? List.length (children w1))%nat; exact H1.
Qed.

Lemma animate_shapeValue (controlsUpdate : R -> Vec3 -> Vec3)
      (delta elapsedTime : R) (w : World) :
  shapeValue (animate controlsUpdate delta elapsedTime w) = shapeValue w.
Proof.
  unfold animate, set_cameraPosition. cbn [shapeValue].
  destruct (isAnimated (shapeValue w)).
  - rewrite updateAnimatedGlyphs_frame. cbn [set_children children].
    destruct (isStatic (shapeValue w)); [|reflexivity].
    destruct (0 <? _)%nat; reflexivity.
  - destruct (isStatic (shapeValue w)); [|reflexivity].
    destruct (0 <? _)%nat; reflexivity.
Qed.

Lemma frames_children_length (controlsUpdate : R -> Vec3 -> Vec3)
      (ticks : list (R * R)) :
  forall w, List.length (children (frames controlsUpdate ticks w))
            = List.length (children w).
Proof.
  induction ticks as [|[delta elapsedTime] ticks IH]; intro w; simpl; [reflexivity|].
  now rewrite IH, animate_children_length.
Qed.

(** The spin of a static shape: one frame adds [delta * 0.05] to the
    group's rotation about the vertical axis. *)
Lemma animate_spin (controlsUpdate : R -> Vec3 -> Vec3)
      (delta elapsedTime : R) (w : World) :
  isStatic (shapeValue w) = true -> children w <> [] ->
  groupRotation (animate controlsUpdate delta elapsedTime w)
  = Vector3.mk (Vector3.x (groupRotation w))
               (Vector3.y (groupRotation w) + delta * 0.05)
               (Vector3.z (groupRotation w)).
Proof.
  intros Hst Hne. unfold animate, set_cameraPosition. cbn [shapeValue].
  assert (Ha : isAnimated (shapeValue w) = false).
  { revert Hst. unfold isStatic, isAnimated.
    destruct (String.eqb_spec (shapeValue w) "mobius") as [->|_]; [discriminate|].
    destruct (String.eqb_spec (shapeValue w) "klein") as [->|_]; [discriminate|].
    destruct (String.eqb_spec (shapeValue w) "torus-klein-knot") as [->|_];
      [discriminate|reflexivity]. }
  rewrite Ha, Hst. cbn [children].
  destruct (children w) as [|m l] eqn:E; [congruence|]. reflexivity.
Qed.

Lemma updateGlyphArrangement_nonempty (w : World) :
  children w <> [] ->
  let w' := set_groupRotation
              (set_knotDisplay w (if (shapeValue w =? "torus-klein-knot")%string
                                  then "flex"%string else "none"%string))
              (Vector3.mk 0 0 0) in
  updateGlyphArrangement w
  = if isAnimated (shapeValue w)
    then updateAnimatedGlyphs 0 w'
    else set_children w' (forEach (staticGlyph w' (List.length (children w'))) (children w')).
Proof.
  intros Hne w'. unfold updateGlyphArrangement.
  unfold set_knotDisplay at 1. cbn [children].
  destruct (children w) as [|m l] eqn:E; [congruence|].
  cbn [List.length Nat.eqb]. unfold w'. cbn [shapeValue set_knotDisplay]. reflexivity.
Qed.

(** C8.  With a non-empty collection [updateGlyphArrangement] is the
    arranger of the shape run on a world whose group rotation has been set
    to (0, 0, 0), and the rotation is (0, 0, 0) when it returns; so after
    any run of frames, each of which adds [delta * 0.05] to the rotation
    about the vertical axis while a static shape is shown, a change of the
    shape leaves the rotation at (0, 0, 0). *)
Theorem dispatcher_resets_group_rotation
        (controlsUpdate : R -> Vec3 -> Vec3) (w : World) :
  children w <> [] ->
  (exists w', groupRotation w' = Vector3.mk 0 0 0
     /\ children w' = children w
     /\ updateGlyphArrangement w
        = if isAnimated (shapeValue w)
          then updateAnimatedGlyphs 0 w'
          else set_children w'
                 (forEach (staticGlyph w' (List.length (children w'))) (children w')))
  /\ groupRotation (updateGlyphArrangement w) = Vector3.mk 0 0 0
  /\ (forall (ticks : list (R * R)) (shape : string),
        groupRotation (onShapeChange shape (frames controlsUpdate ticks w))
        = Vector3.mk 0 0 0)
  /\ (forall delta elapsedTime,
        isStatic (shapeValue w) = true ->
        Vector3.y (groupRotation (animate controlsUpdate delta elapsedTime w))
        = Vector3.y (groupRotation w) + delta * 0.05).
Proof.
  intro Hne.
  assert (Hreset : forall w0, children w0 <> [] ->
            groupRotation (updateGlyphArrangement w0) = Vector3.mk 0 0 0).
  { intros w0 H0. rewrite (updateGlyphArrangement_nonempty w0 H0).
    destruct (isAnimated (shapeValue w0)); [|reflexivity].
    rewrite updateAnimatedGlyphs_frame. reflexivity. }
  split; [|split; [|split]].
  - eexists. split; [|split; [|apply (updateGlyphArrangement_nonempty w Hne)]]; reflexivity.
  - now apply Hreset.
  - intros ticks shape. unfold onShapeChange. apply Hreset.
    cbn [set_shapeValue children].
    intro E. apply Hne. apply length_zero_iff_nil.
    rewrite <- (frames_children_length controlsUpdate ticks w), E. reflexivity.
  - intros delta elapsedTime Hst.
    now rewrite (animate_spin controlsUpdate delta elapsedTime w Hst Hne).
Qed.

Lemma dispatcher_resets_group_rotation_witness :
  let w := freshWorld "mobius" 1 3 in
  let spin := [(0.016, 0.016); (0.016, 0.032); (0.02, 0.052)] in
  groupRotation (onShapeChange "helix"
                   (frames (fun _ c => c) spin (onShapeChange "circle" w)))
  = Vector3.mk 0 0 0.
Proof.
  cbv zeta.
  apply (dispatcher_resets_group_rotation (fun _ c => c)
           (onShapeChange "circle" (freshWorld "mobius" 1 3))).
  rewrite <- length_zero_iff_nil.
  unfold onShapeChange.
  rewrite (proj2 (updateGlyphArrangement_config _)). simpl. discriminate.
Defined.

(** After the same frames the rotation about the vertical axis is not zero:
    the reset has something to undo. *)
Lemma spin_accumulates :
  Vector3.y (groupRotation
    (frames (fun _ c => c) [(0.016, 0.016); (0.016, 0.032); (0.02, 0.052)]
            (onShapeChange "circle" (freshWorld "mobius" 1 3))))
  = 0.0026.
Proof.
  set (w0 := onShapeChange "circle" (freshWorld "mobius" 1 3)).
  assert (Hs : forall w, shapeValue w = "circle"%string -> List.length (children w) = 3%nat ->
             forall d e, let w' := animate (fun _ c => c) d e w in
               shapeValue w' = "circle"%string /\ List.length (children w') = 3%nat
               /\ Vector3.y (groupRotation w') = Vector3.y (groupRotation w) + d * 0.05).
  { intros w Hsh Hl d e w'. split; [|split].
    - unfold w'. now rewrite animate_shapeValue.
    - unfold w'. now rewrite animate_children_length.
    - unfold w'. rewrite animate_spin; [reflexivity | now rewrite Hsh |].
      intro E. rewrite E in Hl. discriminate. }
  assert (H0 : shapeValue w0 = "circle"%string /\ List.length (children w0) = 3%nat
               /\ Vector3.y (groupRotation w0) = 0).
  { unfold w0, onShapeChange. split; [|split].
    - rewrite <- (proj1 (proj1 (updateGlyphArrangement_config _))). reflexivity.
    - rewrite (proj2 (updateGlyphArrangement_config _)). reflexivity.
    - rewrite updateGlyphArrangement_nonempty by (simpl; discriminate). reflexivity. }
  destruct H0 as (Ha & Hb & Hc).
  cbn [frames].
  destruct (Hs w0 Ha Hb 0.016 0.016) as (Ha1 & Hb1 & Hc1).
  destruct (Hs _ Ha1 Hb1 0.016 0.032) as (Ha2 & Hb2 & Hc2).
  destruct (Hs _ Ha2 Hb2 0.02 0.052) as (Ha3 & Hb3 & Hc3).
  cbv zeta in *. lra.
Qed.

(** ** Colours *)

Lemma animatedGlyph_color (w : World) (time : R) (count i : nat) (a : Mesh) :
  shapeValue w <> "torus-klein-knot"%string ->
  color (animatedGlyph w time count i a) = color a.
Proof.
  intro Hs. unfold animatedGlyph.
  destruct (shapeValue w =? "mobius")%string; [reflexivity|].
  destruct (shapeValue w =? "klein")%string; [reflexivity|].
  destruct (String.eqb_spec (shapeValue w) "torus-klein-knot"); [contradiction|reflexivity].
Qed.

Lemma staticGlyph_color (w : World) (count i : nat) (a : Mesh) :
  color (staticGlyph w count i a) = color a.
Proof.
  unfold staticGlyph.
  destruct (shapeValue w =? "circle")%string; [reflexivity|].
  destruct (shapeValue w =? "grid")%string; [reflexivity|].
  destruct (shapeValue w =? "sphere")%string; [reflexivity|].
  destruct (shapeValue w =? "helix")%string; reflexivity.
Qed.

(** The hue of the source, [(u / (2 * PI)) % 1], is [u % (2 * PI)] over
    [2 * PI]. *)
Lemma js_rem_hue (u : R) : js_rem (u / (PI * 2)) 1 = js_rem u (2 * PI) / (2 * PI).
Proof.
  unfold js_rem.
  replace (u / (PI * 2) / 1) with (u / (2 * PI)) by (field; apply PI_neq0).
  field. apply PI_neq0.
Qed.

(** For a dividend that is not negative and a positive divisor the
    remainder is the one of the floor division. *)
Lemma js_rem_floor_mod (a b : R) : 0 <= a -> 0 < b -> js_rem a b = floor_mod a b.
Proof.
  intros Ha Hb. unfold js_rem, floor_mod, js_trunc.
  destruct (Rle_dec 0 (a / b)) as [_|H]; [reflexivity|].
  exfalso. apply H. unfold Rdiv.
  apply Rmult_le_pos; [assumption | left; now apply Rinv_0_lt_compat].
Qed.

Lemma knotU_nonneg (time : R) (count i : nat) : 0 <= time -> 0 <= knotU time count i.
Proof.
  intro Ht. unfold knotU. cbv zeta.
  assert (0 <= INR i / INR count).
  { destruct count as [|n].
    - simpl INR. unfold Rdiv. rewrite Rinv_0. lra.
    - unfold Rdiv. apply Rmult_le_pos; [apply pos_INR|].
      left. apply Rinv_0_lt_compat. apply lt_0_INR. lia. }
  pose proof PI_RGT_0. nra.
Qed.

(** C9.  For every shape other than torus-klein-knot, whether supported or
    not, both arrangers leave the colours of all objects as they were.  For
    torus-klein-knot the animated arranger sets the colour of every object
    [i] by [setHSL] with saturation 0.8, lightness 0.6 and the hue
    [(u / (2 * PI)) % 1], which is [(u % (2 * PI)) / (2 * PI)], and for a
    time that is not negative the floor remainder [(u mod 2 * PI) / (2 * PI)];
    [updateGlyphArrangement] does so with the hue of time 0. *)
Theorem only_knot_colors (w : World) (time : R) :
  (shapeValue w <> "torus-klein-knot"%string ->
   colors (updateAnimatedGlyphs time w) = colors w
   /\ colors (updateGlyphArrangement w) = colors w)
  /\ (shapeValue w = "torus-klein-knot"%string ->
      forall i, (i < List.length (children w))%nat ->
        let count := List.length (children w) in
        (exists m, glyph (updateAnimatedGlyphs time w) i = Some m
           /\ color m = HSL (js_rem (knotU time count i) (2 * PI) / (2 * PI)) 0.8 0.6
           /\ (0 <= time ->
               color m = HSL (floor_mod (knotU time count i) (2 * PI) / (2 * PI)) 0.8 0.6))
        /\ (exists m, glyph (updateGlyphArrangement w) i = Some m
              /\ color m = HSL (floor_mod (knotU 0 count i) (2 * PI) / (2 * PI)) 0.8 0.6)).
Proof.
  assert (Hknot : forall t i m0,
            shapeValue w = "torus-klein-knot"%string ->
            color (animatedGlyph w t (List.length (children w)) i m0)
            = HSL (js_rem (knotU t (List.length (children w)) i) (2 * PI) / (2 * PI)) 0.8 0.6).
  { intros t i m0 Hs. unfold animatedGlyph. rewrite Hs.
    cbn [String.eqb Ascii.eqb Bool.eqb color]. unfold knotHue.
    now rewrite js_rem_hue. }
  assert (H2PI : 0 < 2 * PI) by (pose proof PI_RGT_0; lra).
  split.
  - intro Hs. unfold colors. split.
    + rewrite updateAnimatedGlyphs_children. apply forEach_from_map.
      intros. now apply animatedGlyph_color.
    + rewrite updateGlyphArrangement_children.
      destruct (isAnimated (shapeValue w)); apply forEach_from_map; intros.
      * now apply animatedGlyph_color.
      * apply staticGlyph_color.
  - intros Hs i Hi count. split.
    + destruct (updateAnimatedGlyphs_glyph time w i Hi) as (m0 & _ & Hm).
      eexists. split; [exact Hm|]. rewrite (Hknot time i m0 Hs). fold count.
      split; [reflexivity|]. intro Ht.
      rewrite js_rem_floor_mod; [reflexivity | now apply knotU_nonneg | exact H2PI].
    + destruct (updateGlyphArrangement_glyph w i Hi) as (m0 & _ & Hm).
      eexists. split; [exact Hm|]. rewrite Hs.
      cbn [isAnimated String.eqb Ascii.eqb Bool.eqb orb].
      rewrite (Hknot 0 i m0 Hs). fold count.
      rewrite js_rem_floor_mod; [reflexivity | apply knotU_nonneg; lra | exact H2PI].
Qed.

Lemma only_knot_colors_witness :
  (colors (updateAnimatedGlyphs 3 kleinWorldB) = colors kleinWorldB
   /\ colors (updateGlyphArrangement kleinWorldB) = colors kleinWorldB)
  /\ (exists m, glyph (updateAnimatedGlyphs 3 (knotWorld 2 3 1 8)) 5 = Some m
        /\ color m = HSL (js_rem (knotU 3 8 5) (2 * PI) / (2 * PI)) 0.8 0.6
        /\ (0 <= 3 -> color m = HSL (floor_mod (knotU 3 8 5) (2 * PI) / (2 * PI)) 0.8 0.6)).
Proof.
  split.
  - apply (proj1 (only_knot_colors kleinWorldB 3)). discriminate.
  - apply (proj2 (only_knot_colors (knotWorld 2 3 1 8) 3) eq_refl 5%nat). simpl. lia.
Defined.

(** * Further properties of the arrangement engine and its callers *)

(** ** Static shapes: sphere, helix, circle *)

Lemma static_glyph (w : World) (i : nat) :
  isAnimated (shapeValue w) = false ->
  (i < List.length (children w))%nat ->
  exists m0, glyph w i = Some m0 /\
    glyph (updateGlyphArrangement w) i
    = Some (staticGlyph w (List.length (children w)) i m0).
Proof.
  intros Ha Hi.
  destruct (updateGlyphArrangement_glyph w i Hi) as (m0 & H0 & Hm).
  exists m0. split; [exact H0|]. now rewrite Ha in Hm.
Qed.

Lemma index_ratio_bounds (count i : nat) :
  (i < count)%nat -> 0 <= INR i / INR count < 1.
Proof.
  intro Hi.
  assert (Hc : 0 < INR count) by (apply lt_0_INR; lia).
  pose proof (pos_INR i) as H0. apply lt_INR in Hi.
  split.
  - unfold Rdiv. apply Rmult_le_pos; [exact H0 | left; now apply Rinv_0_lt_compat].
  - apply Rmult_lt_reg_r with (INR count); [exact Hc|].
    unfold Rdiv. rewrite Rmult_assoc, Rinv_l by lra. lra.
Qed.

Lemma Rmax_150_pos (a : R) : 0 < Rmax 150 a.
Proof. pose proof (Rmax_l 150 a). lra. Qed.

Lemma Rmax_200_pos (a : R) : 0 < Rmax 200 a.
Proof. pose proof (Rmax_l 200 a). lra. Qed.

Lemma sphere_glyph_height (w : World) (i : nat) :
  shapeValue w = "sphere"%string ->
  (i < List.length (children w))%nat ->
  let count := List.length (children w) in
  exists m, glyph (updateGlyphArrangement w) i = Some m
    /\ Vector3.z (position m)
       = Rmax 150 (INR count * 0.25) * spacingValue w * (-1 + 2 * INR i / INR count).
Proof.
  intros Hshape Hi count.
  destruct (static_glyph w i) as (m0 & _ & Hm); [now rewrite Hshape | exact Hi |].
  eexists. split; [exact Hm|].
  unfold staticGlyph. rewrite Hshape.
  cbn [String.eqb Ascii.eqb Bool.eqb position Vector3.z]. fold count.
  rewrite cos_acos; [reflexivity|].
  pose proof (index_ratio_bounds count i Hi) as Hr. unfold Rdiv in *.
  rewrite Rmult_assoc. lra.
Qed.

(** Every glyph of the sphere shape is on the sphere of radius
    [max(150, count * 0.25) * spacing] around the origin, at the height
    [radius * (-1 + 2 * i / count)], and is turned towards the scene's
    position. *)
Theorem sphere_glyph_on_sphere (w : World) (i : nat) :
  shapeValue w = "sphere"%string ->
  0 <= spacingValue w ->
  (i < List.length (children w))%nat ->
  let count := List.length (children w) in
  let sphereRadius := Rmax 150 (INR count * 0.25) * spacingValue w in
  exists m, glyph (updateGlyphArrangement w) i = Some m
    /\ Vector3.length (position m) = sphereRadius
    /\ Vector3.z (position m) = sphereRadius * (-1 + 2 * INR i / INR count)
    /\ rotation m = LookAt (scenePosition w).
Proof.
  intros Hshape Hs Hi count sphereRadius.
  destruct (static_glyph w i) as (m0 & _ & Hm); [now rewrite Hshape | exact Hi |].
  eexists. split; [exact Hm|].
  unfold staticGlyph. rewrite Hshape.
  cbn [String.eqb Ascii.eqb Bool.eqb position rotation]. fold count sphereRadius.
  set (phi := acos (-1 + 2 * INR i / INR count)).
  set (theta := sqrt (INR count * PI) * phi).
  split; [|split; [|reflexivity]].
  - unfold Vector3.length, Vector3.lengthSq, Vector3.dot.
    cbn [Vector3.x Vector3.y Vector3.z].
    replace (sphereRadius * cos theta * sin phi * (sphereRadius * cos theta * sin phi)
             + sphereRadius * sin theta * sin phi * (sphereRadius * sin theta * sin phi)
             + sphereRadius * cos phi * (sphereRadius * cos phi))
      with (sphereRadius * sphereRadius
            * (sin phi * sin phi * (sin theta * sin theta + cos theta * cos theta)
               + cos phi * cos phi)) by ring.
    rewrite sin_cos_square, Rmult_1_r, sin_cos_square, Rmult_1_r.
    apply sqrt_square. unfold sphereRadius.
    pose proof (Rmax_150_pos (INR count * 0.25)). nra.
  - cbn [Vector3.z]. unfold phi. rewrite cos_acos; [reflexivity|].
    pose proof (index_ratio_bounds count i Hi) as Hr. unfold Rdiv in *.
    rewrite Rmult_assoc. lra.
Qed.

Lemma sphere_glyph_on_sphere_witness :
  exists m, glyph (updateGlyphArrangement (freshWorld "sphere" 2 5)) 3 = Some m
    /\ Vector3.length (position m) = Rmax 150 (INR 5 * 0.25) * 2
    /\ Vector3.z (position m) = Rmax 150 (INR 5 * 0.25) * 2 * (-1 + 2 * INR 3 / INR 5)
    /\ rotation m = LookAt (Vector3.mk 0 0 0).
Proof.
  apply (sphere_glyph_on_sphere (freshWorld "sphere" 2 5) 3);
    [reflexivity | simpl; lra | simpl; lia].
Defined.

(** No two glyphs of the sphere shape share a position when the spacing is
    positive: their heights differ. *)
Theorem sphere_glyphs_distinct (w : World) (i j : nat) :
  shapeValue w = "sphere"%string ->
  0 < spacingValue w ->
  (i < List.length (children w))%nat ->
  (j < List.length (children w))%nat ->
  i <> j ->
  option_map position (glyph (updateGlyphArrangement w) i)
  <> option_map position (glyph (updateGlyphArrangement w) j).
Proof.
  intros Hshape Hs Hi Hj Hij.
  destruct (sphere_glyph_height w i Hshape Hi) as (mi & Hgi & Hzi).
  destruct (sphere_glyph_height w j Hshape Hj) as (mj & Hgj & Hzj).
  rewrite Hgi, Hgj. cbn [option_map]. intro E. injection E as E.
  rewrite E in Hzi. rewrite Hzi in Hzj.
  set (count := List.length (children w)) in *.
  assert (Hc : 0 < INR count) by (apply lt_0_INR; lia).
  pose proof (Rmax_150_pos (INR count * 0.25)) as Hm.
  assert (Hr : 0 < Rmax 150 (INR count * 0.25) * spacingValue w) by nra.
  apply Rmult_eq_reg_l in Hzj; [|lra].
  assert (Hd : INR i / INR count = INR j / INR count) by lra.
  unfold Rdiv in Hd. apply Rmult_eq_reg_r in Hd; [|apply Rinv_neq_0_compat; lra].
  apply INR_eq in Hd. contradiction.
Qed.

Lemma sphere_glyphs_distinct_witness :
  option_map position (glyph (updateGlyphArrangement (freshWorld "sphere" 1 6)) 2)
  <> option_map position (glyph (updateGlyphArrangement (freshWorld "sphere" 1 6)) 5).
Proof.
  apply (sphere_glyphs_distinct (freshWorld "sphere" 1 6) 2 5);
    [reflexivity | simpl; lra | simpl; lia | simpl; lia | discriminate].
Defined.

Lemma helix_glyph_height (w : World) (i : nat) :
  shapeValue w = "helix"%string ->
  (i < List.length (children w))%nat ->
  exists m, glyph (updateGlyphArrangement w) i = Some m
    /\ Vector3.y (position m)
       = (INR i - INR (List.length (children w)) / 2) * 3 * spacingValue w.
Proof.
  intros Hshape Hi.
  destruct (static_glyph w i) as (m0 & _ & Hm); [now rewrite Hshape | exact Hi |].
  eexists. split; [exact Hm|].
  unfold staticGlyph. rewrite Hshape.
  cbn [String.eqb Ascii.eqb Bool.eqb position Vector3.y]. lra.
Qed.

(** Every glyph of the helix shape is on the cylinder of radius
    [100 * spacing] around the vertical axis, at the height
    [(i - count / 2) * 3 * spacing], and is turned towards the point of the
    axis at its own height. *)
Theorem helix_glyph_on_cylinder (w : World) (i : nat) :
  shapeValue w = "helix"%string ->
  (i < List.length (children w))%nat ->
  let count := List.length (children w) in
  exists m, glyph (updateGlyphArrangement w) i = Some m
    /\ Vector3.x (position m) * Vector3.x (position m)
       + Vector3.z (position m) * Vector3.z (position m)
       = (100 * spacingValue w) * (100 * spacingValue w)
    /\ Vector3.y (position m) = (INR i - INR count / 2) * 3 * spacingValue w
    /\ rotation m = LookAt (Vector3.mk 0 (Vector3.y (position m)) 0).
Proof.
  intros Hshape Hi count.
  destruct (static_glyph w i) as (m0 & _ & Hm); [now rewrite Hshape | exact Hi |].
  eexists. split; [exact Hm|].
  unfold staticGlyph. rewrite Hshape.
  cbn [String.eqb Ascii.eqb Bool.eqb position rotation Vector3.x Vector3.y Vector3.z].
  fold count. set (a := INR i / INR count * PI * 2 * 10).
  split; [|split; [lra|reflexivity]].
  replace (100 * spacingValue w * cos a * (100 * spacingValue w * cos a)
           + 100 * spacingValue w * sin a * (100 * spacingValue w * sin a))
    with (100 * spacingValue w * (100 * spacingValue w) * (sin a * sin a + cos a * cos a))
    by ring.
  now rewrite sin_cos_square, Rmult_1_r.
Qed.

Lemma helix_glyph_on_cylinder_witness :
  exists m, glyph (updateGlyphArrangement (freshWorld "helix" 2 7)) 4 = Some m
    /\ Vector3.x (position m) * Vector3.x (position m)
       + Vector3.z (position m) * Vector3.z (position m)
       = (100 * 2) * (100 * 2)
    /\ Vector3.y (position m) = (INR 4 - INR 7 / 2) * 3 * 2
    /\ rotation m = LookAt (Vector3.mk 0 (Vector3.y (position m)) 0).
Proof.
  apply (helix_glyph_on_cylinder (freshWorld "helix" 2 7) 4); [reflexivity | simpl; lia].
Defined.

(** The helix makes ten turns over the collection: when the count is ten
    times [k], the glyphs [i] and [i + k] are one full turn apart, at the same
    x and z, the later one [3 * spacing * k] higher. *)
Theorem helix_ten_turns (w : World) (k i : nat) :
  shapeValue w = "helix"%string ->
  List.length (children w) = (10 * k)%nat ->
  (i + k < List.length (children w))%nat ->
  exists m m', glyph (updateGlyphArrangement w) i = Some m
    /\ glyph (updateGlyphArrangement w) (i + k) = Some m'
    /\ Vector3.x (position m') = Vector3.x (position m)
    /\ Vector3.z (position m') = Vector3.z (position m)
    /\ Vector3.y (position m') = Vector3.y (position m) + 3 * spacingValue w * INR k.
Proof.
  intros Hshape Hlen Hik.
  destruct (static_glyph w i) as (m0 & _ & Hm); [now rewrite Hshape | lia |].
  destruct (static_glyph w (i + k)) as (m0' & _ & Hm'); [now rewrite Hshape | exact Hik |].
  eexists. eexists. split; [exact Hm|]. split; [exact Hm'|].
  unfold staticGlyph. rewrite Hshape, Hlen.
  cbn [String.eqb Ascii.eqb Bool.eqb position Vector3.x Vector3.y Vector3.z].
  assert (Hk : 0 < INR k) by (apply lt_0_INR; lia).
  assert (Ha : INR (i + k) / INR (10 * k) * PI * 2 * 10
               = INR i / INR (10 * k) * PI * 2 * 10 + 2 * PI).
  { rewrite plus_INR, mult_INR. simpl (INR 10). field. lra. }
  rewrite Ha, cos_plus, sin_plus, cos_2PI, sin_2PI.
  rewrite plus_INR. repeat split; lra.
Qed.

Lemma helix_ten_turns_witness :
  exists m m', glyph (updateGlyphArrangement (freshWorld "helix" 1 20)) 3 = Some m
    /\ glyph (updateGlyphArrangement (freshWorld "helix" 1 20)) (3 + 2) = Some m'
    /\ Vector3.x (position m') = Vector3.x (position m)
    /\ Vector3.z (position m') = Vector3.z (position m)
    /\ Vector3.y (position m') = Vector3.y (position m) + 3 * 1 * INR 2.
Proof.
  apply (helix_ten_turns (freshWorld "helix" 1 20) 2 3);
    [reflexivity | reflexivity | simpl; lia].
Defined.

(** No two glyphs of the helix shape share a position when the spacing is
    not zero: their heights differ. *)
Theorem helix_glyphs_distinct (w : World) (i j : nat) :
  shapeValue w = "helix"%string ->
  spacingValue w <> 0 ->
  (i < List.length (children w))%nat ->
  (j < List.length (children w))%nat ->
  i <> j ->
  option_map position (glyph (updateGlyphArrangement w) i)
  <> option_map position (glyph (updateGlyphArrangement w) j).
Proof.
  intros Hshape Hs Hi Hj Hij.
  destruct (helix_glyph_height w i Hshape Hi) as (mi & Hgi & Hyi).
  destruct (helix_glyph_height w j Hshape Hj) as (mj & Hgj & Hyj).
  rewrite Hgi, Hgj. cbn [option_map]. intro E. injection E as E.
  rewrite E in Hyi. rewrite Hyi in Hyj.
  apply Rmult_eq_reg_r in Hyj; [|exact Hs].
  assert (Hd : INR i = INR j) by lra.
  apply INR_eq in Hd. contradiction.
Qed.

Lemma helix_glyphs_distinct_witness :
  option_map position (glyph (updateGlyphArrangement (freshWorld "helix" 1 6)) 2)
  <> option_map position (glyph (updateGlyphArrangement (freshWorld "helix" 1 6)) 5).
Proof.
  apply (helix_glyphs_distinct (freshWorld "helix" 1 6) 2 5);
    [reflexivity | simpl; lra | simpl; lia | simpl; lia | discriminate].
Defined.

(** ** Grid *)

(** The floor of a quotient of integers is the integer quotient. *)
Lemma Zfloor_div (a c : Z) : (0 < c)%Z -> Zfloor (IZR a / IZR c) = (a / c)%Z.
Proof.
  intro Hc. apply Zfloor_eq.
  pose proof (Z.div_mod a c ltac:(lia)) as Hdm.
  pose proof (Z.mod_pos_bound a c Hc) as [Hm0 Hm1].
  assert (HcR : 0 < IZR c) by (now apply IZR_lt).
  assert (Ha : IZR a = IZR c * IZR (a / c) + IZR (a mod c))
    by (rewrite <- mult_IZR, <- plus_IZR; now f_equal).
  apply IZR_le in Hm0. apply IZR_lt in Hm1.
  split.
  - apply Rmult_le_reg_r with (IZR c); [exact HcR|].
    unfold Rdiv. rewrite Rmult_assoc, Rinv_l by lra. lra.
  - apply Rmult_lt_reg_r with (IZR c); [exact HcR|].
    unfold Rdiv. rewrite Rmult_assoc, Rinv_l by lra. lra.
Qed.

(** The remainder of natural numbers. *)
Lemma js_rem_mod (a c : Z) :
  (0 <= a)%Z -> (0 < c)%Z -> js_rem (IZR a) (IZR c) = IZR (a mod c).
Proof.
  intros Ha Hc. unfold js_rem, js_trunc.
  assert (HcR : 0 < IZR c) by (now apply IZR_lt).
  destruct (Rle_dec 0 (IZR a / IZR c)) as [_|H].
  - unfold Math_floor. rewrite Zfloor_div by exact Hc.
    pose proof (Z.div_mod a c ltac:(lia)) as Hdm.
    assert (He : IZR a = IZR c * IZR (a / c) + IZR (a mod c))
      by (rewrite <- mult_IZR, <- plus_IZR; now f_equal).
    lra.
  - exfalso. apply H. unfold Rdiv.
    apply Rmult_le_pos; [now apply IZR_le | left; now apply Rinv_0_lt_compat].
Qed.

(** The number of columns: the least integer whose square is at least the
    count. *)
Lemma grid_cols (count : nat) :
  (1 <= count)%nat ->
  let cols := Zceil (sqrt (INR count)) in
  (1 <= cols)%Z /\ ((cols - 1) * (cols - 1) < Z.of_nat count <= cols * cols)%Z.
Proof.
  intros Hc cols.
  pose proof (Zceil_bound (sqrt (INR count))) as [Hlo Hhi]. fold cols in Hlo, Hhi.
  clearbody cols.
  assert (H1 : 1 <= INR count) by (change 1 with (INR 1); apply le_INR; lia).
  assert (Hs1 : 1 <= sqrt (INR count)).
  { rewrite <- sqrt_1. apply sqrt_le_1_alt. exact H1. }
  assert (Hsq : sqrt (INR count) * sqrt (INR count) = INR count)
    by (apply sqrt_sqrt; lra).
  assert (Hcols : (1 <= cols)%Z).
  { destruct (Z_le_gt_dec 1 cols) as [H|H]; [exact H|].
    exfalso. assert (H0 : (cols <= 0)%Z) by lia. apply IZR_le in H0. lra. }
  split; [exact Hcols|].
  apply IZR_le in Hcols.
  split.
  - apply lt_IZR. rewrite mult_IZR, minus_IZR, <- INR_IZR_INZ, <- Hsq.
    apply Rmult_le_0_lt_compat; lra.
  - apply le_IZR. rewrite mult_IZR, <- INR_IZR_INZ, <- Hsq.
    apply Rmult_le_compat; lra.
Qed.

Lemma grid_glyph_position (w : World) (i : nat) :
  shapeValue w = "grid"%string ->
  (i < List.length (children w))%nat ->
  let count := List.length (children w) in
  let cols := Zceil (sqrt (INR count)) in
  exists m, glyph (updateGlyphArrangement w) i = Some m
    /\ position m
       = Vector3.mk
           ((IZR (Z.of_nat i mod cols) - (IZR cols - 1) / 2) * (40 * spacingValue w))
           (- ((IZR (Z.of_nat i / cols) - (IZR (Z.of_nat count / cols) - 1) / 2)
               * (40 * spacingValue w)))
           0
    /\ rotation m = LookAt (cameraPosition w).
Proof.
  intros Hshape Hi count cols.
  destruct (grid_cols count ltac:(unfold count; lia)) as (Hc1 & _). fold cols in Hc1.
  destruct (static_glyph w i) as (m0 & _ & Hm); [now rewrite Hshape | exact Hi |].
  eexists. split; [exact Hm|].
  unfold staticGlyph. rewrite Hshape.
  cbn [String.eqb Ascii.eqb Bool.eqb position rotation].
  split; [|reflexivity].
  fold count. unfold Math_ceil. fold cols.
  rewrite !INR_IZR_INZ, js_rem_mod by lia.
  unfold Math_floor. rewrite !Zfloor_div by lia.
  f_equal; ring.
Qed.

(** Every glyph of the grid shape is in the plane z = 0, in the cell of
    column [i mod cols] and row [i / cols] of a square of [cols] columns and
    rows, [cols] being the least integer whose square is at least the count;
    cells are [40 * spacing] wide and high, and the glyph is turned towards
    the camera. *)
Theorem grid_glyph_in_cell (w : World) (i : nat) :
  shapeValue w = "grid"%string ->
  (i < List.length (children w))%nat ->
  let count := List.length (children w) in
  let cols := Zceil (sqrt (INR count)) in
  let col := (Z.of_nat i mod cols)%Z in
  let row := (Z.of_nat i / cols)%Z in
  ((cols - 1) * (cols - 1) < Z.of_nat count <= cols * cols)%Z
  /\ (0 <= col < cols)%Z /\ (0 <= row < cols)%Z
  /\ exists m, glyph (updateGlyphArrangement w) i = Some m
       /\ position m
          = Vector3.mk
              ((IZR col - (IZR cols - 1) / 2) * (40 * spacingValue w))
              (- ((IZR row - (IZR (Z.of_nat count / cols) - 1) / 2) * (40 * spacingValue w)))
              0
       /\ rotation m = LookAt (cameraPosition w).
Proof.
  intros Hshape Hi count cols col row.
  destruct (grid_cols count ltac:(unfold count; lia)) as (Hc1 & Hlo & Hhi).
  fold cols in Hc1, Hlo, Hhi.
  split; [split; assumption|].
  split; [apply Z.mod_pos_bound; lia|].
  split.
  - unfold row. split; [apply Z.div_pos; lia|].
    apply Z.div_lt_upper_bound; [lia|]. unfold count in Hhi. lia.
  - exact (grid_glyph_position w i Hshape Hi).
Qed.

Lemma grid_glyph_in_cell_witness :
  let w := freshWorld "grid" 1 7 in
  let cols := Zceil (sqrt (INR 7)) in
  let col := (Z.of_nat 5 mod cols)%Z in
  let row := (Z.of_nat 5 / cols)%Z in
  ((cols - 1) * (cols - 1) < Z.of_nat 7 <= cols * cols)%Z
  /\ (0 <= col < cols)%Z /\ (0 <= row < cols)%Z
  /\ exists m, glyph (updateGlyphArrangement w) 5 = Some m
       /\ position m
          = Vector3.mk
              ((IZR col - (IZR cols - 1) / 2) * (40 * 1))
              (- ((IZR row - (IZR (Z.of_nat 7 / cols) - 1) / 2) * (40 * 1)))
              0
       /\ rotation m = LookAt (Vector3.mk 0 50 600).
Proof.
  apply (grid_glyph_in_cell (freshWorld "grid" 1 7) 5); [reflexivity | simpl; lia].
Defined.

(** No two glyphs of the grid shape share a cell, so none share a position
    when the spacing is not zero. *)
Theorem grid_glyphs_distinct (w : World) (i j : nat) :
  shapeValue w = "grid"%string ->
  spacingValue w <> 0 ->
  (i < List.length (children w))%nat ->
  (j < List.length (children w))%nat ->
  i <> j ->
  option_map position (glyph (updateGlyphArrangement w) i)
  <> option_map position (glyph (updateGlyphArrangement w) j).
Proof.
  intros Hshape Hs Hi Hj Hij.
  destruct (grid_cols (List.length (children w)) ltac:(lia)) as (Hc & _).
  destruct (grid_glyph_position w i Hshape Hi) as (mi & Hgi & Hpi & _).
  destruct (grid_glyph_position w j Hshape Hj) as (mj & Hgj & Hpj & _).
  rewrite Hgi, Hgj. cbn [option_map]. rewrite Hpi, Hpj.
  set (cols := Zceil (sqrt (INR (List.length (children w))))) in *.
  intro E. injection E as Ex Ey.
  assert (H40 : 40 * spacingValue w <> 0) by lra.
  apply Rmult_eq_reg_r in Ex; [|exact H40].
  apply Ropp_eq_compat in Ey. rewrite !Ropp_involutive in Ey.
  apply Rmult_eq_reg_r in Ey; [|exact H40].
  assert (Hmod : (Z.of_nat i mod cols = Z.of_nat j mod cols)%Z) by (apply eq_IZR; lra).
  assert (Hdiv : (Z.of_nat i / cols = Z.of_nat j / cols)%Z) by (apply eq_IZR; lra).
  assert (Hpos : (cols <> 0)%Z) by lia.
  pose proof (Z.div_mod (Z.of_nat i) cols Hpos) as Hdi.
  pose proof (Z.div_mod (Z.of_nat j) cols Hpos) as Hdj.
  rewrite Hmod, Hdiv in Hdi. lia.
Qed.

Lemma grid_glyphs_distinct_witness :
  option_map position (glyph (updateGlyphArrangement (freshWorld "grid" 1 6)) 2)
  <> option_map position (glyph (updateGlyphArrangement (freshWorld "grid" 1 6)) 5).
Proof.
  apply (grid_glyphs_distinct (freshWorld "grid" 1 6) 2 5);
    [reflexivity | simpl; lra | simpl; lia | simpl; lia | discriminate].
Defined.

(** ** Circle *)

(** Two angles of one turn with the same cosine and sine are equal. *)
Lemma cos_sin_inj (a b : R) :
  0 <= a < 2 * PI -> 0 <= b < 2 * PI ->
  cos a = cos b -> sin a = sin b -> a = b.
Proof.
  intros Ha Hb Hc Hs.
  assert (Hs0 : sin (a - b) = 0).
  { rewrite sin_minus, Hc, Hs. ring. }
  assert (Hc1 : cos (a - b) = 1).
  { rewrite cos_minus, Hc, Hs.
    rewrite Rplus_comm. apply sin_cos_square. }
  destruct (sin_eq_0_0 _ Hs0) as [k Hk].
  pose proof PI_RGT_0 as Hpi.
  assert (Hk1 : (-2 < k < 2)%Z).
  { split; apply lt_IZR.
    - apply Rmult_lt_reg_r with PI; [exact Hpi|]. lra.
    - apply Rmult_lt_reg_r with PI; [exact Hpi|]. lra. }
  assert (Hcases : (k = -1 \/ k = 0 \/ k = 1)%Z) by lia.
  destruct Hcases as [-> | [-> | ->]].
  - exfalso. rewrite Hk in Hc1.
    replace (-1 * PI) with (- PI) in Hc1 by ring.
    rewrite cos_neg, cos_PI in Hc1. lra.
  - lra.
  - exfalso. rewrite Hk, Rmult_1_l, cos_PI in Hc1. lra.
Qed.

(** Every glyph of the circle shape is in the plane y = 0 at the distance
    [max(200, count * 0.6) * spacing] from the origin, turned towards the
    scene's position, and no two glyphs share a position when the spacing
    is not zero. *)
Theorem circle_glyphs_distinct (w : World) (i j : nat) :
  shapeValue w = "circle"%string ->
  spacingValue w <> 0 ->
  (i < List.length (children w))%nat ->
  (j < List.length (children w))%nat ->
  i <> j ->
  let radius := Rmax 200 (INR (List.length (children w)) * 0.6) * spacingValue w in
  exists mi mj,
    glyph (updateGlyphArrangement w) i = Some mi
    /\ glyph (updateGlyphArrangement w) j = Some mj
    /\ Vector3.lengthSq (position mi) = radius * radius
    /\ Vector3.y (position mi) = 0
    /\ rotation mi = LookAt (scenePosition w)
    /\ position mi <> position mj.
Proof.
  intros Hshape Hs Hi Hj Hij radius.
  destruct (static_glyph w i) as (m0 & _ & Hm); [now rewrite Hshape | exact Hi |].
  destruct (static_glyph w j) as (m0' & _ & Hm'); [now rewrite Hshape | exact Hj |].
  eexists. eexists. split; [exact Hm|]. split; [exact Hm'|].
  unfold staticGlyph. rewrite Hshape.
  cbn [String.eqb Ascii.eqb Bool.eqb position rotation Vector3.y].
  set (count := List.length (children w)) in *. fold radius.
  set (a := INR i / INR count * PI * 2). set (b := INR j / INR count * PI * 2).
  split; [|split; [reflexivity|split; [reflexivity|]]].
  - unfold Vector3.lengthSq, Vector3.dot. cbn [Vector3.x Vector3.y Vector3.z].
    replace (radius * cos a * (radius * cos a) + 0 * 0 + radius * sin a * (radius * sin a))
      with (radius * radius * (sin a * sin a + cos a * cos a)) by ring.
    now rewrite sin_cos_square, Rmult_1_r.
  - intro E. injection E as Ex Ez.
    assert (Hr : radius <> 0).
    { unfold radius. pose proof (Rmax_200_pos (INR count * 0.6)). nra. }
    apply Rmult_eq_reg_l in Ex; [|exact Hr].
    apply Rmult_eq_reg_l in Ez; [|exact Hr].
    pose proof PI_RGT_0 as Hpi.
    pose proof (index_ratio_bounds count i Hi) as Hri.
    pose proof (index_ratio_bounds count j Hj) as Hrj.
    assert (Hab : a = b) by (apply cos_sin_inj; unfold a, b; try assumption; nra).
    unfold a, b in Hab.
    assert (Hd : INR i / INR count = INR j / INR count) by nra.
    assert (Hc : 0 < INR count) by (apply lt_0_INR; lia).
    unfold Rdiv in Hd. apply Rmult_eq_reg_r in Hd; [|apply Rinv_neq_0_compat; lra].
    apply INR_eq in Hd. contradiction.
Qed.

Lemma circle_glyphs_distinct_witness :
  let w := freshWorld "circle" 1 6 in
  exists mi mj,
    glyph (updateGlyphArrangement w) 2 = Some mi
    /\ glyph (updateGlyphArrangement w) 5 = Some mj
    /\ Vector3.lengthSq (position mi)
       = Rmax 200 (INR 6 * 0.6) * 1 * (Rmax 200 (INR 6 * 0.6) * 1)
    /\ Vector3.y (position mi) = 0
    /\ rotation mi = LookAt (Vector3.mk 0 0 0)
    /\ position mi <> position mj.
Proof.
  apply (circle_glyphs_distinct (freshWorld "circle" 1 6) 2 5);
    [reflexivity | simpl; lra | simpl; lia | simpl; lia | discriminate].
Defined.

(** ** Animated shapes in time *)

Lemma forEach_from_ext {A : Type} (f g : nat -> A -> A) (l : list A) :
  (forall i a, f i a = g i a) ->
  forall k, forEach_from f k l = forEach_from g k l.
Proof.
  intro H. induction l as [|a l IH]; intro k; simpl; [reflexivity|].
  now rewrite H, IH.
Qed.

(** Two times at which the callback does the same to every object give the
    same world. *)
Lemma updateAnimatedGlyphs_ext (t1 t2 : R) (w : World) :
  (forall i a, animatedGlyph w t1 (List.length (children w)) i a
               = animatedGlyph w t2 (List.length (children w)) i a) ->
  updateAnimatedGlyphs t1 w = updateAnimatedGlyphs t2 w.
Proof.
  intro H.
  rewrite (updateAnimatedGlyphs_frame t1), (updateAnimatedGlyphs_frame t2).
  rewrite !updateAnimatedGlyphs_children. f_equal.
  now apply forEach_from_ext.
Qed.

Lemma cos_period_Z (a : R) (k : Z) : cos (a + 2 * IZR k * PI) = cos a.
Proof.
  destruct (Z_le_gt_dec 0 k) as [H|H].
  - rewrite <- (Z2Nat.id k H), <- INR_IZR_INZ. apply cos_period.
  - rewrite <- (cos_period (a + 2 * IZR k * PI) (Z.to_nat (- k))).
    rewrite INR_IZR_INZ, Z2Nat.id by lia. rewrite opp_IZR. f_equal. ring.
Qed.

Lemma sin_period_Z (a : R) (k : Z) : sin (a + 2 * IZR k * PI) = sin a.
Proof.
  destruct (Z_le_gt_dec 0 k) as [H|H].
  - rewrite <- (Z2Nat.id k H), <- INR_IZR_INZ. apply sin_period.
  - rewrite <- (sin_period (a + 2 * IZR k * PI) (Z.to_nat (- k))).
    rewrite INR_IZR_INZ, Z2Nat.id by lia. rewrite opp_IZR. f_equal. ring.
Qed.

Lemma cos_add_2PI (a : R) : cos (a + 2 * PI) = cos a.
Proof. rewrite cos_plus, cos_2PI, sin_2PI. ring. Qed.

Lemma sin_add_2PI (a : R) : sin (a + 2 * PI) = sin a.
Proof. rewrite sin_plus, cos_2PI, sin_2PI. ring. Qed.

(** The mobius band turns once in [10 * PI] units of time: the arranger
    writes the same world at [time + 10 * PI] as at [time]. *)
Theorem mobius_time_period (w : World) (time : R) :
  shapeValue w = "mobius"%string ->
  updateAnimatedGlyphs (time + 10 * PI) w = updateAnimatedGlyphs time w.
Proof.
  intro Hshape. apply updateAnimatedGlyphs_ext. intros i a.
  unfold animatedGlyph. rewrite Hshape. cbn [String.eqb Ascii.eqb Bool.eqb].
  f_equal. rewrite !mobiusPos_unfold. cbv zeta.
  replace (INR i / INR (List.length (children w)) * PI * 2 + (time + 10 * PI) * 0.2)
    with (INR i / INR (List.length (children w)) * PI * 2 + time * 0.2 + 2 * PI) by lra.
  now rewrite cos_add_2PI, sin_add_2PI.
Qed.

Lemma mobius_time_period_witness :
  updateAnimatedGlyphs (3 + 10 * PI) (freshWorld "mobius" 1 5)
  = updateAnimatedGlyphs 3 (freshWorld "mobius" 1 5).
Proof. apply (mobius_time_period (freshWorld "mobius" 1 5) 3). reflexivity. Defined.

(** The klein shape repeats every [4 * PI] units of time. *)
Theorem klein_time_period (w : World) (time : R) :
  shapeValue w = "klein"%string ->
  updateAnimatedGlyphs (time + 4 * PI) w = updateAnimatedGlyphs time w.
Proof.
  intro Hshape. apply updateAnimatedGlyphs_ext. intros i a.
  unfold animatedGlyph. rewrite Hshape. cbn [String.eqb Ascii.eqb Bool.eqb].
  f_equal. rewrite !kleinPos_surface. unfold kleinSurface.
  replace ((time + 4 * PI) * 0.5) with (time * 0.5 + 2 * PI) by lra.
  now rewrite cos_add_2PI, sin_add_2PI.
Qed.

Lemma klein_time_period_witness :
  updateAnimatedGlyphs (3 + 4 * PI) (freshWorld "klein" 1 5)
  = updateAnimatedGlyphs 3 (freshWorld "klein" 1 5).
Proof. apply (klein_time_period (freshWorld "klein" 1 5) 3). reflexivity. Defined.

(** One more turn of the parameter does not move the knot's point, for
    integer windings. *)
Lemma getTorusKnotPos_turn (u : R) (p q : Z) (radius tubeRadius : R) :
  getTorusKnotPos (u + 2 * PI) (IZR p) (IZR q) radius tubeRadius
  = getTorusKnotPos u (IZR p) (IZR q) radius tubeRadius.
Proof.
  unfold getTorusKnotPos. cbv zeta.
  replace (IZR p * (u + 2 * PI)) with (IZR p * u + 2 * IZR p * PI) by ring.
  replace (IZR q * (u + 2 * PI)) with (IZR q * u + 2 * IZR q * PI) by ring.
  now rewrite !cos_period_Z, !sin_period_Z.
Qed.

Lemma knotU_20 (time : R) (count i : nat) :
  knotU (time + 20) count i = knotU time count i + 2 * PI.
Proof. unfold knotU. cbv zeta. lra. Qed.

Lemma js_rem_plus_1 (a : R) : 0 <= a -> js_rem (a + 1) 1 = js_rem a 1.
Proof.
  intro Ha. rewrite !js_rem_floor_mod by lra.
  unfold floor_mod, Math_floor.
  replace ((a + 1) / 1) with (a / 1 + IZR 1) by (simpl; field).
  rewrite Zfloor_addz, plus_IZR. simpl. lra.
Qed.

(** The path of the knot repeats every 20 units of time, whatever the
    integer windings: at [time + 20] every glyph looks at the same point of
    the knot and has the same colour as at [time]. *)
Theorem knot_path_period (w : World) (time : R) (i : nat) :
  shapeValue w = "torus-klein-knot"%string ->
  0 <= time ->
  (i < List.length (children w))%nat ->
  exists m m', glyph (updateAnimatedGlyphs time w) i = Some m
    /\ glyph (updateAnimatedGlyphs (time + 20) w) i = Some m'
    /\ rotation m = LookAt (knotP (spacingValue w) (pValue w) (qValue w) time
                              (List.length (children w)) i)
    /\ rotation m' = rotation m
    /\ color m' = color m.
Proof.
  intros Hshape Ht Hi.
  destruct (updateAnimatedGlyphs_glyph time w i Hi) as (m0 & Hg0 & Hm).
  destruct (updateAnimatedGlyphs_glyph (time + 20) w i Hi) as (m0' & _ & Hm').
  eexists. eexists. split; [exact Hm|]. split; [exact Hm'|].
  unfold animatedGlyph. rewrite Hshape.
  cbn [String.eqb Ascii.eqb Bool.eqb rotation color].
  split; [reflexivity|]. split.
  - f_equal. unfold knotP. cbv zeta. rewrite knotU_20. apply getTorusKnotPos_turn.
  - f_equal. unfold knotHue. rewrite knotU_20.
    pose proof PI_RGT_0 as Hpi.
    replace ((knotU time (List.length (children w)) i + 2 * PI) / (PI * 2))
      with (knotU time (List.length (children w)) i / (PI * 2) + 1) by (field; lra).
    apply js_rem_plus_1.
    pose proof (knotU_nonneg time (List.length (children w)) i Ht).
    unfold Rdiv. apply Rmult_le_pos; [assumption|].
    left. apply Rinv_0_lt_compat. lra.
Qed.

Lemma knot_path_period_witness :
  exists m m', glyph (updateAnimatedGlyphs 1 (knotWorld 2 3 1 8)) 5 = Some m
    /\ glyph (updateAnimatedGlyphs (1 + 20) (knotWorld 2 3 1 8)) 5 = Some m'
    /\ rotation m = LookAt (knotP 1 2 3 1 8 5)
    /\ rotation m' = rotation m
    /\ color m' = color m.
Proof.
  apply (knot_path_period (knotWorld 2 3 1 8) 1 5); [reflexivity | lra | simpl; lia].
Defined.

(** The hue that the knot shape sets is a hue: at a time that is not
    negative it is in [0, 1). *)
Theorem knot_hue_range (w : World) (time : R) (i : nat) :
  shapeValue w = "torus-klein-knot"%string ->
  0 <= time ->
  (i < List.length (children w))%nat ->
  exists m h, glyph (updateAnimatedGlyphs time w) i = Some m
    /\ color m = HSL h 0.8 0.6 /\ 0 <= h < 1.
Proof.
  intros Hshape Ht Hi.
  destruct (updateAnimatedGlyphs_glyph time w i Hi) as (m0 & _ & Hm).
  eexists. eexists. split; [exact Hm|].
  unfold animatedGlyph. rewrite Hshape.
  cbn [String.eqb Ascii.eqb Bool.eqb color]. split; [reflexivity|].
  unfold knotHue.
  pose proof PI_RGT_0 as Hpi.
  pose proof (knotU_nonneg time (List.length (children w)) i Ht) as Hu.
  set (a := knotU time (List.length (children w)) i / (PI * 2)).
  assert (Ha : 0 <= a).
  { unfold a, Rdiv. apply Rmult_le_pos; [assumption|].
    left. apply Rinv_0_lt_compat. lra. }
  rewrite js_rem_floor_mod by lra.
  unfold floor_mod, Math_floor.
  replace (a / 1) with a by field.
  pose proof (Zfloor_bound a). lra.
Qed.

Lemma knot_hue_range_witness :
  exists m h, glyph (updateAnimatedGlyphs 30 (knotWorld 2 3 1 8)) 5 = Some m
    /\ color m = HSL h 0.8 0.6 /\ 0 <= h < 1.
Proof.
  apply (knot_hue_range (knotWorld 2 3 1 8) 30 5); [reflexivity | lra | simpl; lia].
Defined.

(** ** Degenerate knots *)

(** With both windings zero every point of the knot is the one point
    [(radius + tubeRadius, 0, 0)]: the finite-difference tangent is the zero
    vector, which [normalize] leaves as it is, the binormal is zero, and
    every glyph is written on the x-axis, within 15 of that point. *)
Theorem knot_zero_windings (w : World) (time : R) (i : nat) :
  shapeValue w = "torus-klein-knot"%string ->
  pValue w = 0%Z -> qValue w = 0%Z ->
  (i < List.length (children w))%nat ->
  let a := knotHelixAngle time (List.length (children w)) i in
  exists m, glyph (updateAnimatedGlyphs time w) i = Some m
    /\ position m = Vector3.mk (140 * spacingValue w + 15 * cos a) 0 0
    /\ rotation m = LookAt (Vector3.mk (140 * spacingValue w) 0 0).
Proof.
  intros Hshape Hp Hq Hi a.
  destruct (updateAnimatedGlyphs_glyph time w i Hi) as (m0 & _ & Hm).
  eexists. split; [exact Hm|].
  unfold animatedGlyph. rewrite Hshape, Hp, Hq.
  cbn [String.eqb Ascii.eqb Bool.eqb position rotation].
  set (count := List.length (children w)) in *.
  assert (HP : forall u r, getTorusKnotPos u 0 0 (100 * spacingValue w) r
                           = Vector3.mk (100 * spacingValue w + r) 0 0).
  { intros u r. unfold getTorusKnotPos. cbv zeta.
    rewrite !Rmult_0_l, cos_0, sin_0. f_equal; ring. }
  assert (HPk : knotP (spacingValue w) 0 0 time count i
                = Vector3.mk (140 * spacingValue w) 0 0).
  { unfold knotP. cbv zeta. rewrite HP. f_equal. ring. }
  assert (HT : knotT (spacingValue w) 0 0 time count i = Vector3.mk 0 0 0).
  { unfold knotT. cbv zeta. rewrite HPk, HP.
    set (D := Vector3.sub _ _).
    assert (HD : D = Vector3.mk 0 0 0).
    { unfold D, Vector3.sub. cbn [Vector3.x Vector3.y Vector3.z]. f_equal; ring. }
    rewrite HD. destruct (normalize_cases (Vector3.mk 0 0 0)) as [[_ Hn]|(Hl & _)].
    - exact Hn.
    - exfalso. apply Hl. unfold Vector3.length, Vector3.lengthSq, Vector3.dot.
      cbn [Vector3.x Vector3.y Vector3.z].
      replace (0 * 0 + 0 * 0 + 0 * 0) with 0 by ring. apply sqrt_0. }
  assert (HN : knotN (spacingValue w) 0 0 time count i = Vector3.mk 1 0 0).
  { rewrite knotN_torusNormal. unfold torusNormal.
    rewrite !Rmult_0_l, cos_0, sin_0. f_equal; ring. }
  split; [|now rewrite HPk].
  unfold knotPos, knotHelixOffset. cbv zeta. rewrite HPk, HT, HN. fold a.
  unfold Vector3.add, Vector3.multiplyScalar, Vector3.crossVectors.
  cbn [Vector3.x Vector3.y Vector3.z]. f_equal; ring.
Qed.

Lemma knot_zero_windings_witness :
  exists m, glyph (updateAnimatedGlyphs 2 (knotWorld 0 0 1 8)) 5 = Some m
    /\ position m = Vector3.mk (140 * 1 + 15 * cos (knotHelixAngle 2 8 5)) 0 0
    /\ rotation m = LookAt (Vector3.mk (140 * 1) 0 0).
Proof.
  apply (knot_zero_windings (knotWorld 0 0 1 8) 2 5);
    [reflexivity | reflexivity | reflexivity | simpl; lia].
Defined.

(** ** Arrangers composed *)

Lemma forEach_from_compose {A : Type} (f g : nat -> A -> A) (l : list A) :
  forall k, forEach_from f k (forEach_from g k l)
            = forEach_from (fun i a => f i (g i a)) k l.
Proof.
  induction l as [|a l IH]; intro k; simpl; [reflexivity|]. now rewrite IH.
Qed.

Lemma forEach_from_id {A : Type} (f : nat -> A -> A) (l : list A) :
  (forall i a, f i a = a) -> forall k, forEach_from f k l = l.
Proof.
  intro H. induction l as [|a l IH]; intro k; simpl; [reflexivity|].
  now rewrite H, IH.
Qed.

Lemma forEach_from_as_map {A : Type} (f : nat -> A -> A) (g : A -> A) (l : list A) :
  (forall i a, f i a = g a) -> forall k, forEach_from f k l = map g l.
Proof.
  intro H. induction l as [|a l IH]; intro k; simpl; [reflexivity|].
  now rewrite H, IH.
Qed.

Lemma set_children_same (w : World) : set_children w (children w) = w.
Proof. now destruct w. Qed.

(** What the callback of the animated arranger writes does not depend on
    what an earlier call wrote. *)
Lemma animatedGlyph_absorb (w : World) (t1 t2 : R) (count i : nat) (a : Mesh) :
  animatedGlyph w t2 count i (animatedGlyph w t1 count i a) = animatedGlyph w t2 count i a.
Proof.
  unfold animatedGlyph.
  destruct (shapeValue w =? "mobius")%string; [reflexivity|].
  destruct (shapeValue w =? "klein")%string; [reflexivity|].
  destruct (shapeValue w =? "torus-klein-knot")%string; reflexivity.
Qed.

Lemma staticGlyph_absorb (w : World) (count i : nat) (a : Mesh) :
  staticGlyph w count i (staticGlyph w count i a) = staticGlyph w count i a.
Proof.
  unfold staticGlyph.
  destruct (shapeValue w =? "circle")%string; [reflexivity|].
  destruct (shapeValue w =? "grid")%string; [reflexivity|].
  destruct (shapeValue w =? "sphere")%string; [reflexivity|].
  destruct (shapeValue w =? "helix")%string; reflexivity.
Qed.

Lemma set_children_twice (w : World) (a b : list Mesh) :
  set_children (set_children w a) b = set_children w b.
Proof. reflexivity. Qed.

Lemma animatedGlyph_set_children (w : World) (l : list Mesh) :
  animatedGlyph (set_children w l) = animatedGlyph w.
Proof. reflexivity. Qed.

Lemma updateAnimatedGlyphs_children_twice (w : World) (t1 t2 : R) :
  children (updateAnimatedGlyphs t2 (updateAnimatedGlyphs t1 w))
  = children (updateAnimatedGlyphs t2 w).
Proof.
  rewrite (updateAnimatedGlyphs_children t2 (updateAnimatedGlyphs t1 w)).
  rewrite (updateAnimatedGlyphs_frame t1 w), animatedGlyph_set_children.
  cbn [set_children children].
  rewrite !updateAnimatedGlyphs_children, forEach_length.
  unfold forEach. rewrite forEach_from_compose.
  apply forEach_from_ext. intros i a. apply animatedGlyph_absorb.
Qed.

Lemma updateAnimatedGlyphs_absorb (w : World) (t1 t2 : R) :
  updateAnimatedGlyphs t2 (updateAnimatedGlyphs t1 w) = updateAnimatedGlyphs t2 w.
Proof.
  rewrite (updateAnimatedGlyphs_frame t2 (updateAnimatedGlyphs t1 w)).
  rewrite updateAnimatedGlyphs_children_twice.
  rewrite (updateAnimatedGlyphs_frame t1 w), set_children_twice.
  symmetry. apply updateAnimatedGlyphs_frame.
Qed.

(** The animated arranger keeps no trace of earlier calls: after any run of
    calls at the times [ts], a call at [t] gives the world of the call at
    [t] alone, for every shape and every collection. *)
Theorem updateAnimatedGlyphs_last_wins (w : World) (ts : list R) (t : R) :
  updateAnimatedGlyphs t (fold_left (fun w0 t0 => updateAnimatedGlyphs t0 w0) ts w)
  = updateAnimatedGlyphs t w.
Proof.
  revert w. induction ts as [|t1 ts IH]; intro w; cbn [fold_left].
  - reflexivity.
  - rewrite IH. apply updateAnimatedGlyphs_absorb.
Qed.

(** The animated arranger does nothing to a shape that is not animated. *)
Theorem updateAnimatedGlyphs_static_untouched (w : World) (time : R) :
  isAnimated (shapeValue w) = false ->
  updateAnimatedGlyphs time w = w.
Proof.
  intro Ha. rewrite updateAnimatedGlyphs_frame, updateAnimatedGlyphs_children.
  unfold forEach. rewrite forEach_from_id; [apply set_children_same|].
  intros i a. unfold animatedGlyph. unfold isAnimated in Ha.
  destruct (shapeValue w =? "mobius")%string; [discriminate|].
  destruct (shapeValue w =? "klein")%string; [discriminate|].
  destruct (shapeValue w =? "torus-klein-knot")%string; [discriminate|reflexivity].
Qed.

Lemma updateAnimatedGlyphs_static_untouched_witness :
  updateAnimatedGlyphs 5 (updateGlyphArrangement (freshWorld "grid" 1 4))
  = updateGlyphArrangement (freshWorld "grid" 1 4).
Proof.
  apply (updateAnimatedGlyphs_static_untouched
           (updateGlyphArrangement (freshWorld "grid" 1 4)) 5).
  rewrite <- (proj1 (proj1 (updateGlyphArrangement_config _))). reflexivity.
Defined.

(** [updateGlyphArrangement] run twice is [updateGlyphArrangement] run once,
    for every shape, supported or not, and every collection. *)
Theorem updateGlyphArrangement_idempotent (w : World) :
  updateGlyphArrangement (updateGlyphArrangement w) = updateGlyphArrangement w.
Proof.
  destruct (children w) as [|m l] eqn:E.
  - rewrite (updateGlyphArrangement_empty w E).
    rewrite updateGlyphArrangement_empty by exact E. reflexivity.
  - assert (Hne : children w <> []) by (rewrite E; discriminate).
    pose proof (updateGlyphArrangement_nonempty w Hne) as H1. cbv zeta in H1.
    set (w' := set_groupRotation _ _) in H1.
    assert (Hne1 : children (updateGlyphArrangement w) <> []).
    { intro E1. apply length_zero_iff_nil in E1.
      rewrite (proj2 (updateGlyphArrangement_config w)), E in E1. discriminate. }
    rewrite (updateGlyphArrangement_nonempty _ Hne1).
    rewrite <- (proj1 (proj1 (updateGlyphArrangement_config w))).
    rewrite H1.
    destruct (isAnimated (shapeValue w)) eqn:Ha.
    + cbn [shapeValue set_knotDisplay set_groupRotation].
      transitivity (updateAnimatedGlyphs 0 (updateAnimatedGlyphs 0 w')).
      * f_equal. rewrite (updateAnimatedGlyphs_frame 0 w'). reflexivity.
      * apply updateAnimatedGlyphs_absorb.
    + cbn [set_children set_groupRotation set_knotDisplay children shapeValue
           spacingValue pValue qValue knotDisplay groupRotation scenePosition
           cameraPosition].
      set (X := forEach (staticGlyph w' (List.length (children w'))) (children w')).
      change (set_children w' (forEach (staticGlyph w' (List.length X)) X)
              = set_children w' X).
      f_equal. unfold X. rewrite forEach_length.
      unfold forEach. rewrite forEach_from_compose.
      apply forEach_from_ext. intros i a. apply staticGlyph_absorb.
Qed.

(** The positions after a change of the shape do not depend on the shape
    shown before: for a supported shape [s2], changing to [s1] and then to
    [s2] gives the positions of changing to [s2] at once. *)
Theorem shape_change_forgets_positions (w : World) (s1 s2 : string) :
  supported s2 = true ->
  positions (onShapeChange s2 (onShapeChange s1 w)) = positions (onShapeChange s2 w).
Proof.
  intro Hs. unfold onShapeChange.
  apply updateGlyphArrangement_positions; [|exact Hs|].
  - destruct (updateGlyphArrangement_config (set_shapeValue w s1)) as ((_ & H2 & H3 & H4) & _).
    repeat split; cbn [set_shapeValue spacingValue pValue qValue];
      symmetry; assumption.
  - cbn [set_shapeValue children].
    now rewrite (proj2 (updateGlyphArrangement_config (set_shapeValue w s1))).
Qed.

Lemma shape_change_forgets_positions_witness :
  positions (onShapeChange "sphere" (onShapeChange "klein" (freshWorld "grid" 1 5)))
  = positions (onShapeChange "sphere" (freshWorld "grid" 1 5)).
Proof.
  apply (shape_change_forgets_positions (freshWorld "grid" 1 5) "klein" "sphere").
  reflexivity.
Defined.

(** The colours do depend on it: no arranger restores a colour.  Once the
    knot shape has been shown at a time, every glyph keeps the colour it
    got there through any change to another shape. *)
Theorem knot_colors_persist (w : World) (time : R) (s : string) (i : nat) :
  shapeValue w = "torus-klein-knot"%string ->
  s <> "torus-klein-knot"%string ->
  (i < List.length (children w))%nat ->
  exists m, glyph (onShapeChange s (updateAnimatedGlyphs time w)) i = Some m
    /\ color m = HSL (knotHue time (List.length (children w)) i) 0.8 0.6.
Proof.
  intros Hshape Hs Hi.
  set (w1 := updateAnimatedGlyphs time w).
  assert (Hlen : List.length (children w1) = List.length (children w))
    by apply (proj2 (updateAnimatedGlyphs_config time w)).
  destruct (updateAnimatedGlyphs_glyph time w i Hi) as (m0 & _ & Hm). fold w1 in Hm.
  destruct (updateGlyphArrangement_glyph (set_shapeValue w1 s) i) as (m1 & Hm1 & Hm2);
    [cbn [set_shapeValue children]; lia|].
  unfold glyph in Hm1. cbn [set_shapeValue children] in Hm1.
  unfold glyph in Hm. rewrite Hm in Hm1. injection Hm1 as <-.
  eexists. split; [exact Hm2|].
  assert (Hc : color (animatedGlyph w time (List.length (children w)) i m0)
               = HSL (knotHue time (List.length (children w)) i) 0.8 0.6).
  { unfold animatedGlyph. rewrite Hshape. reflexivity. }
  destruct (isAnimated (shapeValue (set_shapeValue w1 s))).
  - rewrite animatedGlyph_color; [exact Hc | exact Hs].
  - rewrite staticGlyph_color. exact Hc.
Qed.

Lemma knot_colors_persist_witness :
  exists m, glyph (onShapeChange "circle" (updateAnimatedGlyphs 4 (knotWorld 2 3 1 6))) 2 = Some m
    /\ color m = HSL (knotHue 4 6 2) 0.8 0.6.
Proof.
  apply (knot_colors_persist (knotWorld 2 3 1 6) 4 "circle" 2);
    [reflexivity | discriminate | simpl; lia].
Defined.

(** A value of the shape selector that no branch names: with a non-empty
    collection [updateGlyphArrangement] hides the knot controls, resets the
    group's rotation and every glyph's rotation, and leaves every position
    and colour as it was. *)
Theorem unknown_shape_keeps_positions (w : World) :
  supported (shapeValue w) = false ->
  children w <> [] ->
  updateGlyphArrangement w
  = mkWorld (shapeValue w) (spacingValue w) (pValue w) (qValue w) "none"
            (Vector3.mk 0 0 0)
            (map (fun m => mkMesh (position m) (Euler 0 0 0) (color m)) (children w))
            (scenePosition w) (cameraPosition w).
Proof.
  intros Hsup Hne.
  unfold supported in Hsup. apply Bool.orb_false_iff in Hsup as [Hst Ha].
  rewrite (updateGlyphArrangement_nonempty w Hne), Ha.
  assert (Hk : (shapeValue w =? "torus-klein-knot")%string = false).
  { unfold isAnimated in Ha. apply Bool.orb_false_iff in Ha as [_ Ha]. exact Ha. }
  rewrite Hk. unfold set_children, set_groupRotation, set_knotDisplay.
  cbn [shapeValue spacingValue pValue qValue knotDisplay groupRotation children
       scenePosition cameraPosition].
  f_equal. unfold forEach. apply forEach_from_as_map. intros i a.
  unfold staticGlyph. cbn [shapeValue]. unfold isStatic in Hst.
  destruct (shapeValue w =? "circle")%string; [discriminate|].
  destruct (shapeValue w =? "helix")%string; [discriminate|].
  destruct (shapeValue w =? "sphere")%string; [discriminate|].
  destruct (shapeValue w =? "grid")%string; [discriminate|]. reflexivity.
Qed.

Lemma unknown_shape_keeps_positions_witness :
  updateGlyphArrangement (set_shapeValue kleinWorldB "cube")
  = mkWorld "cube" 1.5 2 3 "none" (Vector3.mk 0 0 0)
      (map (fun m => mkMesh (position m) (Euler 0 0 0) (color m)) (children kleinWorldB))
      (Vector3.mk 0 0 0) (Vector3.mk 10 20 30).
Proof.
  apply (unknown_shape_keeps_positions (set_shapeValue kleinWorldB "cube"));
    [reflexivity | discriminate].
Defined.

(** ** Runs of frames *)

Lemma isStatic_not_animated (shape : string) :
  isStatic shape = true -> isAnimated shape = false.
Proof.
  unfold isStatic, isAnimated.
  destruct (String.eqb_spec shape "mobius") as [->|_]; [discriminate|].
  destruct (String.eqb_spec shape "klein") as [->|_]; [discriminate|].
  destruct (String.eqb_spec shape "torus-klein-knot") as [->|_];
    [discriminate|reflexivity].
Qed.

Lemma isAnimated_not_static (shape : string) :
  isAnimated shape = true -> isStatic shape = false.
Proof.
  intro H. destruct (isStatic shape) eqn:E; [|reflexivity].
  apply isStatic_not_animated in E. congruence.
Qed.

Lemma animate_static_children (controlsUpdate : R -> Vec3 -> Vec3)
      (delta elapsedTime : R) (w : World) :
  isAnimated (shapeValue w) = false ->
  children (animate controlsUpdate delta elapsedTime w) = children w.
Proof.
  intro Ha. unfold animate, set_cameraPosition. cbn [shapeValue]. rewrite Ha.
  destruct (isStatic (shapeValue w)); [|reflexivity].
  destruct (0 <? _)%nat; reflexivity.
Qed.

(** While a static shape is shown with a non-empty collection, frames move
    no glyph: a run of frames leaves the children as they are and turns the
    group about the vertical axis by 0.05 times the time the run takes. *)
Theorem frames_static_spin (controlsUpdate : R -> Vec3 -> Vec3)
        (ticks : list (R * R)) (w : World) :
  isStatic (shapeValue w) = true ->
  children w <> [] ->
  children (frames controlsUpdate ticks w) = children w
  /\ groupRotation (frames controlsUpdate ticks w)
     = Vector3.mk (Vector3.x (groupRotation w))
                  (Vector3.y (groupRotation w) + totalDelta ticks * 0.05)
                  (Vector3.z (groupRotation w)).
Proof.
  revert w. induction ticks as [|[delta elapsedTime] ticks IH]; intros w Hst Hne.
  - split; [reflexivity|]. cbn [frames totalDelta fold_right].
    destruct (groupRotation w) as [rx ry rz]. cbn [Vector3.x Vector3.y Vector3.z].
    f_equal. lra.
  - cbn [frames].
    set (w1 := animate controlsUpdate delta elapsedTime w).
    assert (Hc1 : children w1 = children w)
      by (apply animate_static_children; now apply isStatic_not_animated).
    assert (Hs1 : shapeValue w1 = shapeValue w) by apply animate_shapeValue.
    destruct (IH w1) as [IHc IHr]; [now rewrite Hs1 | now rewrite Hc1 |].
    split; [now rewrite IHc|].
    rewrite IHr. unfold w1. rewrite (animate_spin _ _ _ _ Hst Hne).
    cbn [Vector3.x Vector3.y Vector3.z totalDelta fold_right fst].
    fold (totalDelta ticks). f_equal. lra.
Qed.

Lemma frames_static_spin_witness :
  let w := onShapeChange "circle" (freshWorld "mobius" 1 3) in
  let ticks := [(0.016, 0.016); (0.016, 0.032); (0.02, 0.052)] in
  children (frames (fun _ c => c) ticks w) = children w
  /\ groupRotation (frames (fun _ c => c) ticks w)
     = Vector3.mk (Vector3.x (groupRotation w))
                  (Vector3.y (groupRotation w) + totalDelta ticks * 0.05)
                  (Vector3.z (groupRotation w)).
Proof.
  apply (frames_static_spin (fun _ c => c)
           [(0.016, 0.016); (0.016, 0.032); (0.02, 0.052)]
           (onShapeChange "circle" (freshWorld "mobius" 1 3))).
  - unfold onShapeChange.
    rewrite <- (proj1 (proj1 (updateGlyphArrangement_config _))). reflexivity.
  - rewrite <- length_zero_iff_nil. unfold onShapeChange.
    rewrite (proj2 (updateGlyphArrangement_config _)). simpl. discriminate.
Defined.

Lemma updateAnimatedGlyphs_camera (time : R) (w : World) (c : Vec3) :
  updateAnimatedGlyphs time (set_cameraPosition w c)
  = set_cameraPosition (updateAnimatedGlyphs time w) c.
Proof.
  rewrite (updateAnimatedGlyphs_frame time (set_cameraPosition w c)).
  rewrite (updateAnimatedGlyphs_frame time w).
  rewrite !updateAnimatedGlyphs_children. reflexivity.
Qed.

Lemma animate_animated (controlsUpdate : R -> Vec3 -> Vec3)
      (delta elapsedTime : R) (w : World) :
  isAnimated (shapeValue w) = true ->
  animate controlsUpdate delta elapsedTime w
  = set_cameraPosition (updateAnimatedGlyphs elapsedTime w)
      (controlsUpdate delta (cameraPosition w)).
Proof.
  intro Ha. unfold animate. 
  change (shapeValue (set_cameraPosition w (controlsUpdate delta (cameraPosition w))))
    with (shapeValue w).
  rewrite Ha, (isAnimated_not_static _ Ha). apply updateAnimatedGlyphs_camera.
Qed.

Lemma frames_app (controlsUpdate : R -> Vec3 -> Vec3) (a b : list (R * R)) :
  forall w, frames controlsUpdate (a ++ b) w
            = frames controlsUpdate b (frames controlsUpdate a w).
Proof.
  induction a as [|[d t] a IH]; intro w; [reflexivity|]. cbn [app frames]. apply IH.
Qed.

(** While an animated shape is shown nothing accumulates over the frames:
    after any run of frames the world is the one the animated arranger
    writes at the last frame's elapsed time, with the camera where the fly
    controls have moved it; the group's rotation is never touched. *)
Theorem frames_animated_last (controlsUpdate : R -> Vec3 -> Vec3)
        (ticks : list (R * R)) (delta elapsedTime : R) (w : World) :
  isAnimated (shapeValue w) = true ->
  exists c, frames controlsUpdate (ticks ++ [(delta, elapsedTime)]) w
            = set_cameraPosition (updateAnimatedGlyphs elapsedTime w) c.
Proof.
  intro Ha.
  assert (Hinv : forall ticks c0 t0,
            exists c t,
              frames controlsUpdate ticks
                (set_cameraPosition (updateAnimatedGlyphs t0 w) c0)
              = set_cameraPosition (updateAnimatedGlyphs t w) c).
  { clear ticks. induction ticks as [|[d t] ticks IH]; intros c0 t0.
    - exists c0, t0. reflexivity.
    - cbn [frames]. rewrite animate_animated.
      + rewrite updateAnimatedGlyphs_camera, updateAnimatedGlyphs_absorb.
        cbn [set_cameraPosition cameraPosition].
        destruct (IH (controlsUpdate d c0) t) as (c & t' & E).
        exists c, t'. rewrite <- E. reflexivity.
      + cbn [set_cameraPosition shapeValue].
        now rewrite <- (proj1 (proj1 (updateAnimatedGlyphs_config t0 w))). }
  rewrite frames_app. cbn [frames].
  destruct ticks as [|[d t] ticks].
  - cbn [frames]. rewrite (animate_animated _ _ _ _ Ha). eexists. reflexivity.
  - cbn [frames]. rewrite (animate_animated _ d t w Ha).
    destruct (Hinv ticks (controlsUpdate d (cameraPosition w)) t) as (c & t' & E).
    rewrite E. rewrite animate_animated.
    + rewrite updateAnimatedGlyphs_camera, updateAnimatedGlyphs_absorb.
      eexists. reflexivity.
    + cbn [set_cameraPosition shapeValue].
      now rewrite <- (proj1 (proj1 (updateAnimatedGlyphs_config t' w))).
Qed.

Lemma frames_animated_last_witness :
  exists c, frames (fun d c => Vector3.add c (Vector3.mk d 0 0))
              ([(0.016, 0.016); (0.016, 0.032)] ++ [(0.02, 0.052)])
              (freshWorld "klein" 1 4)
            = set_cameraPosition (updateAnimatedGlyphs 0.052 (freshWorld "klein" 1 4)) c.
Proof.
  apply (frames_animated_last (fun d c => Vector3.add c (Vector3.mk d 0 0))
           [(0.016, 0.016); (0.016, 0.032)] 0.02 0.052 (freshWorld "klein" 1 4)).
  reflexivity.
Defined.

(** With an empty collection a frame moves the camera and nothing else,
    whatever the shape. *)
Theorem animate_empty_moves_camera_only (controlsUpdate : R -> Vec3 -> Vec3)
        (delta elapsedTime : R) (w : World) :
  children w = [] ->
  animate controlsUpdate delta elapsedTime w
  = set_cameraPosition w (controlsUpdate delta (cameraPosition w)).
Proof.
  intro E. unfold animate.
  set (w1 := set_cameraPosition w _).
  assert (E1 : children w1 = []) by exact E.
  change (shapeValue w1) with (shapeValue w).
  rewrite (updateAnimatedGlyphs_empty elapsedTime w1 E1).
  assert (Hw : (if isAnimated (shapeValue w) then w1 else w1) = w1)
    by (destruct (isAnimated (shapeValue w)); reflexivity).
  rewrite Hw, E1. cbn [List.length Nat.ltb Nat.leb].
  destruct (isStatic (shapeValue w)); reflexivity.
Qed.

Lemma animate_empty_moves_camera_only_witness :
  animate (fun d c => Vector3.add c (Vector3.mk d 0 0)) 0.016 3 (freshWorld "helix" 1 0)
  = set_cameraPosition (freshWorld "helix" 1 0)
      (Vector3.add (Vector3.mk 0 50 600) (Vector3.mk 0.016 0 0)).
Proof.
  apply (animate_empty_moves_camera_only (fun d c => Vector3.add c (Vector3.mk d 0 0))
           0.016 3 (freshWorld "helix" 1 0)).
  reflexivity.
Defined.

(** ** Loading a font *)










(** An upload that fails, because no file was chosen, the file could not be
    read or the font could not be parsed, leaves the world and the initial
    message as they are; only the status text can change. *)
Theorem failed_upload_keeps_world (ArrayBuffer : Type) (parse : ArrayBuffer -> option Glyphs)
        (result : option ArrayBuffer) (app : App) :
  match result with Some bytes => parse bytes = None | None => True end ->
  world (handleFontUpload None app) = world app
  /\ initialText (handleFontUpload None app) = initialText app
  /\ statusText (handleFontUpload None app) = statusText app
  /\ world (readerOnload ArrayBuffer parse result app) = world app
  /\ initialText (readerOnload ArrayBuffer parse result app) = initialText app
  /\ world (readerOnerror app) = world app
  /\ initialText (readerOnerror app) = initialText app.
Proof.
  intro H. repeat split.
  - unfold readerOnload. destruct result as [bytes|]; [rewrite H|]; reflexivity.
  - unfold readerOnload. destruct result as [bytes|]; [rewrite H|]; reflexivity.
Qed.

Lemma failed_upload_keeps_world_witness :
  let app := mkApp kleinWorldB "3 glyphs rendered." None in
  let parse := fun bytes : list nat => match bytes with [] => None | _ => Some [] end in
  world (readerOnload (list nat) parse (Some []) app) = world app.
Proof.
  cbv zeta.
  apply (failed_upload_keeps_world (list nat)
           (fun bytes : list nat => match bytes with [] => None | _ => Some [] end)
           (Some []) (mkApp kleinWorldB "3 glyphs rendered." None)).
  reflexivity.
Defined.



